(** * ctox.subst: placeholder substitution for tox.ini values

    A shallow embedding of [src/ctox/subst.py] and the properties of its
    brace expander, factor-condition evaluator, positional-argument
    extractor and placeholder resolver.

    Conventions of the embedding
    - a Python [str] is a [string]; each [ascii] is the code point 0..255
      of one character;
    - [os.environ] is a [gmap string string], label sets are [gset string];
    - a raised exception is the [Raise] case of [result];
    - the calls into Python's [re] module are modelled by [Re.scan], a
      leftmost, non-overlapping scan driven by an anchored matcher for each
      of the regular expressions the module uses. *)

From Stdlib Require Import Ascii String Arith Lia.
From stdpp Require Import base option list strings gmap.

Local Open Scope stdpp_scope.

(** ** Python string primitives *)

Module Str.

(** [str.isspace] on one character, also the class [\s] of [re] on [str]
    patterns: TAB..CR, FS..US, SPACE, NEL and NBSP. *)
Definition isspace (c : ascii) : bool :=
  let n := nat_of_ascii c in
  ((9 <=? n) && (n <=? 13)) || ((28 <=? n) && (n <=? 32))
  || (n =? 133) || (n =? 160).

(** Longest prefix whose characters satisfy [p], and the rest. *)
Fixpoint span (p : ascii -> bool) (s : string) : string * string :=
  match s with
  | EmptyString => (EmptyString, EmptyString)
  | String c t =>
      if p c then let '(a, b) := span p t in (String c a, b)
      else (EmptyString, s)
  end.

(** Every character of [s] satisfies [p]. *)
Fixpoint all (p : ascii -> bool) (s : string) : bool :=
  match s with
  | EmptyString => true
  | String c t => p c && all p t
  end.

Definition lstrip (s : string) : string := snd (span isspace s).

Fixpoint rstrip (s : string) : string :=
  match s with
  | EmptyString => EmptyString
  | String c t =>
      match rstrip t with
      | EmptyString => if isspace c then EmptyString else String c EmptyString
      | r => String c r
      end
  end.

(** [s.strip()] *)
Definition strip (s : string) : string := rstrip (lstrip s).

(** [s[:n]] for [n >= 0] *)
Fixpoint take (n : nat) (s : string) : string :=
  match n, s with
  | S k, String c t => String c (take k t)
  | _, _ => EmptyString
  end.

(** [s[n:]] for [n >= 0] *)
Fixpoint drop (n : nat) (s : string) : string :=
  match n, s with
  | S k, String _ t => drop k t
  | _, _ => s
  end.

(** [s[i:j]] for [0 <= i], [0 <= j] *)
Definition slice (i j : nat) (s : string) : string := take (j - i) (drop i s).

(** [s[1:-1]] *)
Definition inner (s : string) : string :=
  slice 1 (String.length s - 1) s.

(** [s.startswith(p)] *)
Fixpoint startswith (p s : string) : bool :=
  match p, s with
  | EmptyString, _ => true
  | String a p', String b s' => Ascii.eqb a b && startswith p' s'
  | String _ _, EmptyString => false
  end.

(** [s.split(sep)] for a one-character separator *)
Fixpoint split (sep : ascii) (s : string) : list string :=
  match s with
  | EmptyString => [EmptyString]
  | String c t =>
      if Ascii.eqb c sep then EmptyString :: split sep t
      else match split sep t with
           | h :: r => String c h :: r
           | [] => [String c EmptyString]
           end
  end.

(** [sep.join(l)] *)
Fixpoint join (sep : string) (l : list string) : string :=
  match l with
  | [] => EmptyString
  | [x] => x
  | x :: r => x +:+ sep +:+ join sep r
  end.

(** [s.endswith(p)] *)
Definition endswith (p s : string) : bool :=
  (String.length p <=? String.length s)
  && String.eqb (drop (String.length s - String.length p) s) p.

(** [s[n:-n]] for [0 < n <= len(s)] *)
Definition unwrap (n : nat) (s : string) : string :=
  slice n (String.length s - n) s.

End Str.

(** ** Exceptions *)

Inductive exn : Type :=
| TypeError
| IndexError
| KeyError (key : string)
| NoOptionError (section option : string)
| NotImplementedError (msg : string).

Inductive result (A : Type) : Type :=
| Ok (a : A)
| Raise (e : exn).
Arguments Ok {A} a.
Arguments Raise {A} e.

#[global] Instance result_ret : MRet result := fun _ a => Ok a.
#[global] Instance result_bind : MBind result := fun _ _ f m =>
  match m with
  | Ok a => f a
  | Raise e => Raise e
  end.

(** What a replacement callback may hand back to [re.sub]. *)
Inductive pyval : Type :=
| PyStr (s : string)
| PyNone
| PyOther.

(** ** The part of Python's [re] module that the program uses *)

Module Re.

(** An anchored matcher: on success the matched text and what follows. *)
Definition pattern : Type := string -> option (string * string).

Inductive token : Type :=
| Skip (c : ascii)      (* a character outside every match *)
| Found (g : string).   (* a match, with [m.group()] *)

(** Leftmost scan: at each position try the pattern; on success continue
    after the match, otherwise step over one character. *)
Fixpoint scan_fuel (n : nat) (p : pattern) (s : string) : list token :=
  match n with
  | 0 => []
  | S n' =>
      match p s with
      | Some (g, rest) => Found g :: scan_fuel n' p rest
      | None =>
          match s with
          | EmptyString => []
          | String c t => Skip c :: scan_fuel n' p t
          end
      end
  end.

Definition scan (p : pattern) (s : string) : list token :=
  scan_fuel (S (String.length s)) p s.

(** A match object: [m.start()], [m.end()], [m.group()]. *)
Record Match : Type := { start : nat; stop : nat; group : string }.

Fixpoint locate (pos : nat) (ts : list token) : list Match :=
  match ts with
  | [] => []
  | Skip _ :: r => locate (S pos) r
  | Found g :: r =>
      let e := pos + String.length g in
      {| start := pos; stop := e; group := g |} :: locate e r
  end.

(** [re.finditer(p, s)] *)
Definition finditer (p : pattern) (s : string) : list Match :=
  locate 0 (scan p s).

Fixpoint pieces (ts : list token) : list string :=
  match ts with
  | [] => [EmptyString]
  | Found _ :: r => EmptyString :: pieces r
  | Skip c :: r =>
      match pieces r with
      | h :: q => String c h :: q
      | [] => [String c EmptyString]
      end
  end.

(** [re.split(p, s)] for a pattern without groups *)
Definition split (p : pattern) (s : string) : list string :=
  pieces (scan p s).

(** The callback is called once per match, left to right. *)
Fixpoint collect (repl : string -> result pyval) (ts : list token)
  : result (list pyval) :=
  match ts with
  | [] => mret []
  | Skip c :: r =>
      items ← collect repl r; mret (PyStr (String c EmptyString) :: items)
  | Found g :: r =>
      v ← repl g; items ← collect repl r; mret (v :: items)
  end.

(** The pieces are joined at the end; [None] counts as empty and any other
    non-string makes the join raise [TypeError]. *)
Fixpoint joined (items : list pyval) : result string :=
  match items with
  | [] => mret EmptyString
  | PyStr v :: r => rest ← joined r; mret (v +:+ rest)
  | PyNone :: r => joined r
  | PyOther :: _ => Raise TypeError
  end.

(** [re.sub(p, repl, s)] with a callable [repl] *)
Definition sub (p : pattern) (repl : string -> result pyval) (s : string)
  : result string :=
  items ← collect repl (scan p s); joined items.

(** [{[^{}]*}] *)
Definition is_brace (c : ascii) : bool := Ascii.eqb c "{"%char || Ascii.eqb c "}"%char.

Definition braces : pattern := fun s =>
  match s with
  | String "{"%char t =>
      let '(body, r) := Str.span (fun c => negb (is_brace c)) t in
      match r with
      | String "}"%char rest => Some (String "{" (body +:+ "}"), rest)
      | _ => None
      end
  | _ => None
  end.

(** [\s*c\s*] for a separator character [c] that is not white space *)
Definition spaced (c : ascii) : pattern := fun s =>
  let '(w1, r) := Str.span Str.isspace s in
  match r with
  | String d r' =>
      if Ascii.eqb d c then
        let '(w2, rest) := Str.span Str.isspace r' in
        Some (w1 +:+ String c w2, rest)
      else None
  | EmptyString => None
  end.

(** [p|q] *)
Definition alt (p q : pattern) : pattern := fun s =>
  match p s with
  | Some m => Some m
  | None => q s
  end.

(** The double quote. *)
Definition dquote : ascii := "034"%char.

(** The single quote. *)
Definition squote : ascii := "039"%char.

(** The negated class of the pattern of [split_on], with the separator put
    in before the two quotes: a backslash in that place escapes the quote
    after it and excludes nothing itself. *)
Definition word_char (sep c : ascii) : bool :=
  negb (Ascii.eqb c dquote) && negb (Ascii.eqb c squote)
  && (Ascii.eqb sep "\"%char || negb (Ascii.eqb c sep)).

(** A quote [q], characters other than [q], and [q] again. *)
Definition quoted (q : ascii) : pattern := fun s =>
  match s with
  | String c t =>
      if Ascii.eqb c q then
        let '(body, r) := Str.span (fun d => negb (Ascii.eqb d q)) t in
        match r with
        | String _ rest => Some (String q (body +:+ String q EmptyString), rest)
        | EmptyString => None
        end
      else None
  | EmptyString => None
  end.

(** One round of the repeated group: a character of the class, or a text in
    double quotes, or a text in single quotes. *)
Definition unit (sep : ascii) : pattern := fun s =>
  match s with
  | String c t =>
      if word_char sep c then Some (String c EmptyString, t)
      else alt (quoted dquote) (quoted squote) s
  | EmptyString => None
  end.

(** As many rounds as possible. *)
Fixpoint units_fuel (n : nat) (sep : ascii) (s : string) : string * string :=
  match n with
  | 0 => (EmptyString, s)
  | S n' =>
      match unit sep s with
      | Some (u, rest) =>
          let '(m, rest') := units_fuel n' sep rest in (u +:+ m, rest')
      | None => (EmptyString, s)
      end
  end.

(** The pattern of [split_on]: one round or more. *)
Definition words (sep : ascii) : pattern := fun s =>
  match units_fuel (String.length s) sep s with
  | (EmptyString, _) => None
  | (m, rest) => Some (m, rest)
  end.

(** [re.split(p, s)[1::2]] for a pattern that is one capturing group: the
    matches. *)
Fixpoint captures (ts : list token) : list string :=
  match ts with
  | [] => []
  | Skip _ :: r => captures r
  | Found g :: r => g :: captures r
  end.

End Re.

(** ** The program *)

Definition DEPTH : nat := 5.

(** [re.split(r"\s*,\s*", match.group()[1:-1])] then the comprehension
    [for m in ... for e in envlist]. *)
Definition _replace_curly (envlist : list string) (m : Re.Match) : list string :=
  alt ← Re.split (Re.spaced ","%char) (Str.inner (Re.group m));
  e ← envlist;
  [Str.take (Re.start m) e +:+ alt +:+ Str.drop (Re.stop m) e].

Definition expand_curlys (s : string) : list string :=
  let curleys := Re.finditer Re.braces s in
  foldl _replace_curly [s] (reverse curleys).

(** The generator: [prev] is the offset after the last separator. *)
Fixpoint _split_loop (s : string) (prev : nat) (ms : list Re.Match)
  : list string :=
  match ms with
  | [] =>
      let part := Str.drop prev s in
      if bool_decide (part = EmptyString) then [] else [part]
  | m :: ms' =>
      if negb (Str.startswith "{" (Re.group m)) then
        let part := Str.slice prev (Re.start m) s in
        (if bool_decide (part = EmptyString) then [] else [part])
        ++ _split_loop s (Re.stop m) ms'
      else _split_loop s prev ms'
  end.

Definition _split_out_of_braces (s : string) : list string :=
  _split_loop s 0 (Re.finditer (Re.alt Re.braces (Re.spaced ","%char)) s).

Definition bash_expand (s : string) : list string :=
  t ← _split_out_of_braces s; expand_curlys t.

Definition parse_envlist (s : string) : list string := bash_expand s.

(** The environment descriptor is built outside this module; the module
    reads [env.name], [env.options], [env.config.get(section, option)] and,
    through [getattr], any other attribute. *)
Record Env : Type := {
  name : string;
  options : list string;
  config_get : string -> string -> option string;
  attrs : string -> option pyval
}.

(** [getattr(env, s)]; [None] stands for [AttributeError]. *)
Definition getattr (env : Env) (s : string) : option pyval :=
  if bool_decide (s = "name") then Some (PyStr (name env))
  else if bool_decide (s = "options") then Some PyOther
  else if bool_decide (s = "config") then Some PyOther
  else attrs env s.

Definition expand_factor_conditions (s : string) (env : Env) : string :=
  match Re.split (Re.spaced ":"%char) s with
  | [e0; e1] =>
      if bool_decide (e0 ≠ "env") then
        let env_labels : gset string := list_to_set (Str.split "-"%char (name env)) in
        let labels : gset string := list_to_set (bash_expand e0) in
        if bool_decide (labels ∩ env_labels ≠ ∅) then e1 else ""
      else s
  | _ => s
  end.

Fixpoint _until_flag (arguments : list string) : list string :=
  match arguments with
  | [] => []
  | a :: r => if Str.startswith "-" a then [] else a :: _until_flag r
  end.

Definition positional_args (arguments : list string) : list string :=
  match arguments with
  | a :: r => if bool_decide (a = "--") then r else _until_flag arguments
  | [] => _until_flag arguments
  end.

(** The loop over the four marks: the first one that [t] both starts and
    ends with is cut off at both ends. *)
Fixpoint _strip_first (marks : list string) (t : string) : string :=
  match marks with
  | [] => t
  | sm :: marks' =>
      if Str.startswith sm t && Str.endswith sm t
      then Str.unwrap (String.length sm) t
      else _strip_first marks' t
  end.

Definition speechmarks : list string :=
  [String Re.squote (String Re.squote (String Re.squote EmptyString));
   String Re.dquote (String Re.dquote (String Re.dquote EmptyString));
   String Re.squote EmptyString;
   String Re.dquote EmptyString].

Definition _strip_speechmarks (t : string) : string :=
  _strip_first speechmarks t.

(** [sep] is one character, as the default [" "] is. *)
Definition split_on (s : string) (sep : ascii) : list string :=
  map _strip_speechmarks (Re.captures (Re.scan (Re.words sep) s)).

(** The two groups of the match of the pattern of [_replace_config] at the
    start of [s]: an opening bracket, the shortest run of characters up to a
    closing bracket, then the longest run of characters; a run stops at a
    newline, which the dot does not match. *)
Definition _config_shape (s : string) : option (string * string) :=
  match s with
  | String "["%char t =>
      let '(section, r) :=
        Str.span (fun c => negb (Ascii.eqb c "]"%char) && negb (Ascii.eqb c "010"%char)) t in
      match r with
      | String "]"%char r' =>
          let '(option, _) := Str.span (fun c => negb (Ascii.eqb c "010"%char)) r' in
          Some (section, option)
      | _ => None
      end
  | _ => None
  end.

Definition _replace_config (s : string) (env : Env) : result string :=
  match _config_shape s with
  | Some (section, option) =>
      match config_get env section option with
      | Some expanded =>
          Ok (Str.join (String "010"%char "")
                (map (fun e => expand_factor_conditions e env)
                     (Str.split "010"%char expanded)))
      | None => Raise (NoOptionError section option)
      end
  | None => Raise TypeError
  end.

Definition _replace_posargs (s : string) (env : Env) : result string :=
  let e := Re.split (Re.spaced ":"%char) s in
  if bool_decide (e !! 0 = Some "posargs") then
    let joined := Str.join " " (positional_args (options env)) in
    if bool_decide (joined ≠ "") then Ok joined
    else match e !! 1 with
         | Some dflt => Ok dflt
         | None => Raise IndexError
         end
  else Raise TypeError.

Section Resolver.

(** [os.environ] *)
Variable os_environ : gmap string string.

Definition _replace_envvar (s : string) (_ : Env) : result string :=
  let e := Str.split ":"%char s in
  if bool_decide (3 < length e ∨ length e = 1 ∨ e !! 0 ≠ Some "env") then
    Raise TypeError
  else
    match e with
    | [_; key] =>
        match os_environ !! key with
        | Some v => Ok v
        | None => Raise (KeyError key)
        end
    | [_; key; dflt] => Ok (default dflt (os_environ !! key))
    | _ => Raise TypeError
    end.

(** The loop [for r in [...]: try: return r(s, env) except TypeError: pass]
    followed by the final [raise]. *)
Fixpoint _first_applicable (rs : list (string -> Env -> result string))
    (s : string) (env : Env) : result pyval :=
  match rs with
  | [] => Raise (NotImplementedError ("{" +:+ s +:+ "} not understood in tox.ini file."))
  | r :: rs' =>
      match r s env with
      | Raise TypeError => _first_applicable rs' s env
      | Raise e => Raise e
      | Ok v => Ok (PyStr v)
      end
  end.

(** [m] is [m.group()] of the match object. *)
Definition _replace_match (m : string) (env : Env) : result pyval :=
  let s := Str.strip (Str.inner m) in
  match getattr env s with
  | Some v => Ok v
  | None =>
      _first_applicable [_replace_envvar; _replace_config; _replace_posargs] s env
  end.

(** One [s = re.sub(r"{[^{}]*}", replace, s)] *)
Definition _pass (env : Env) (s : string) : result string :=
  Re.sub Re.braces (fun m => _replace_match m env) s.

Fixpoint _passes (n : nat) (env : Env) (s : string) : result string :=
  match n with
  | 0 => Ok s
  | S k => s' ← _pass env s; _passes k env s'
  end.

Definition replace_braces (s : string) (env : Env) : result string :=
  _passes DEPTH env s.

End Resolver.


(** ** Vocabulary of the statements *)

Definition not_brace (c : ascii) : bool := negb (Re.is_brace c).

(** A brace group: an opening brace, characters that are not braces, a
    closing brace. *)
Definition is_group (g : string) : Prop :=
  ∃ body, g = String "{"%char (body +:+ "}") ∧ Str.all not_brace body = true.

Definition has_group (s : string) : Prop :=
  ∃ pre g post, is_group g ∧ s = pre +:+ g +:+ post.

Definition has_char (c : ascii) (s : string) : Prop :=
  ∃ pre post, s = pre +:+ String c post.

(** A matcher consumes input: its matches are not empty and what it returns
    splits the subject. *)
Definition consuming (p : Re.pattern) : Prop :=
  ∀ s g rest, p s = Some (g, rest) → s = g +:+ rest ∧ g ≠ "".

(** The character [c] does not occur in [s]. *)
Definition no_char (c : ascii) (s : string) : Prop :=
  Str.all (λ d, negb (Ascii.eqb d c)) s = true.

(** The labels of the expression [l] meet the labels of the name of [env]. *)
Definition meets (l : string) (env : Env) : Prop :=
  (list_to_set (bash_expand l) : gset string)
    ∩ list_to_set (Str.split "-"%char (name env)) ≠ ∅.

Definition newline : ascii := "010"%char.

(** An environment with no command-line tokens, no configuration and no
    attribute besides the three the module reads. *)
Definition bare_env (n : string) : Env :=
  {| name := n; options := []; config_get := λ _ _, None; attrs := λ _, None |}.

(** An environment named [py34-foo] with three command-line tokens and one
    configured option of three lines. *)
Definition deps_value : string :=
  "py{33,34}: docformatter" +:+ String newline ("py26: unittest2" +:+ String newline "nose").

Definition tox_env : Env :=
  {| name := "py34-foo";
     options := ["arg1"; "arg2"; "--kwarg"];
     config_get := λ section option,
       if bool_decide (section = "testenv" ∧ option = "deps") then Some deps_value
       else None;
     attrs := λ _, None |}.

(** None of the four strategies applies to the text [t]. *)
Definition unsupported (environ : gmap string string) (env : Env) (t : string) : Prop :=
  getattr env t = None
  ∧ _replace_envvar environ t env = Raise TypeError
  ∧ _replace_config t env = Raise TypeError
  ∧ _replace_posargs t env = Raise TypeError.

(** In one pass over [s] the callback returns for every brace group. *)
Definition resolves (environ : gmap string string) (env : Env) (s : string) : Prop :=
  ∃ items,
    Re.collect (λ m, _replace_match environ m env) (Re.scan Re.braces s) = Ok items.

(** The text [t] occurs in [msg]. *)
Definition mentions (msg t : string) : Prop := ∃ a b, msg = a +:+ t +:+ b.

(** Text with no brace, no colon and no white space. *)
Definition plain_char (c : ascii) : bool :=
  not_brace c && negb (Ascii.eqb c ":"%char) && negb (Str.isspace c).

Definition plain (s : string) : Prop := Str.all plain_char s = true.

(** A string seen as literal texts with a brace group after each, and a
    last literal text: the string it stands for, the candidates it expands
    to, and where its groups are. *)
Fixpoint render (tpl : list (string * string)) (last : string) : string :=
  match tpl with
  | [] => last
  | (lit, body) :: r =>
      lit +:+ String "{"%char (body +:+ String "}"%char (render r last))
  end.

Fixpoint product (tpl : list (string * string)) (last : string) : list string :=
  match tpl with
  | [] => [last]
  | (lit, body) :: r =>
      alt ← Re.split (Re.spaced ","%char) body;
      t ← product r last;
      [lit +:+ alt +:+ t]
  end.

Fixpoint locs (pos : nat) (tpl : list (string * string)) : list Re.Match :=
  match tpl with
  | [] => []
  | (lit, body) :: r =>
      let g := String "{"%char (body +:+ "}") in
      let b := pos + String.length lit in
      {| Re.start := b; Re.stop := b + String.length g; Re.group := g |}
        :: locs (b + String.length g) r
  end.

Definition well_formed (tpl : list (string * string)) (last : string) : Prop :=
  Forall (λ lb, ¬ has_group (fst lb) ∧ Str.all not_brace (snd lb) = true) tpl
  ∧ ¬ has_group last.

(** A quote character. *)
Definition is_quote (c : ascii) : bool :=
  Ascii.eqb c Re.dquote || Ascii.eqb c Re.squote.

(** A separator that [split_on] handles as one: neither a quote nor the
    backslash. *)
Definition sep_ok (sep : ascii) : Prop :=
  is_quote sep = false ∧ sep ≠ "\"%char.

(** What is joined into a command line: a plain word, or a text put between
    two quotes [q]. *)
Inductive arg : Type :=
| Plain (w : string)
| Quoted (q : ascii) (body : string).

Definition arg_text (a : arg) : string :=
  match a with
  | Plain w => w
  | Quoted q body => String q (body +:+ String q "")
  end.

Definition arg_value (a : arg) : string :=
  match a with
  | Plain w => w
  | Quoted _ body => body
  end.

Definition arg_ok (sep : ascii) (a : arg) : Prop :=
  match a with
  | Plain w => w ≠ "" ∧ Str.all (Re.word_char sep) w = true
  | Quoted q body => is_quote q = true ∧ no_char q body
  end.

(** The text that a list of tokens covers. *)
Fixpoint text (ts : list Re.token) : string :=
  match ts with
  | [] => ""
  | Re.Skip c :: r => String c (text r)
  | Re.Found g :: r => g +:+ text r
  end.

(** The top-level segments read off the tokens: [cur] is the segment being
    gathered; a match that is not a brace group ends it, and an empty
    segment is dropped. *)
Fixpoint segs (cur : string) (ts : list Re.token) : list string :=
  match ts with
  | [] => if bool_decide (cur = "") then [] else [cur]
  | Re.Skip c :: r => segs (cur +:+ String c "") r
  | Re.Found g :: r =>
      if Str.startswith "{" g then segs (cur +:+ g) r
      else (if bool_decide (cur = "") then [] else [cur]) ++ segs "" r
  end.

(** Text outside the braces of a tidy segment: no brace, no comma and no
    white space. *)
Definition tidy_char (c : ascii) : bool :=
  not_brace c && negb (Ascii.eqb c ","%char) && negb (Str.isspace c).

(** A segment of an environment list: literal texts that are tidy, brace
    groups of any brace-free content, and some text at all. *)
Definition segment_ok (seg : list (string * string) * string) : Prop :=
  Forall (λ lb, Str.all tidy_char (fst lb) = true
                ∧ Str.all not_brace (snd lb) = true) (fst seg)
  ∧ Str.all tidy_char (snd seg) = true
  ∧ render (fst seg) (snd seg) ≠ "".

(** The number of combinations of the alternatives of the groups. *)
Fixpoint combinations (tpl : list (string * string)) : nat :=
  match tpl with
  | [] => 1
  | (_, body) :: r =>
      length (Re.split (Re.spaced ","%char) body) * combinations r
  end.

(** A template with each group replaced by a value. *)
Fixpoint fill (tpl : list (string * string)) (vals : list string) (last : string)
  : string :=
  match tpl, vals with
  | (lit, _) :: r, v :: vs => lit +:+ v +:+ fill r vs last
  | _, _ => last
  end.

(** The callback gives the values [vals] for the groups of [tpl], in order. *)
Definition values (environ : gmap string string) (env : Env)
    (tpl : list (string * string)) (vals : list string) : Prop :=
  Forall2 (λ lb v,
    _replace_match environ (String "{"%char (snd lb +:+ "}")) env = Ok (PyStr v))
    tpl vals.

(** The scan of a string in which the pattern matches nowhere, and what
    [re.sub] collects from it. *)
Fixpoint skips (s : string) : list Re.token :=
  match s with
  | EmptyString => []
  | String c t => Re.Skip c :: skips t
  end.

Fixpoint literals (s : string) : list pyval :=
  match s with
  | EmptyString => []
  | String c t => PyStr (String c EmptyString) :: literals t
  end.

(** The separator [n] times, and words and quoted texts written with runs of
    separators: each item is a word or a quoted text with the number of
    separators after it, one more than the number given for every item but
    the last. *)
Fixpoint run (n : nat) (sep : ascii) : string :=
  match n with
  | 0 => ""
  | S k => String sep (run k sep)
  end.

Fixpoint spaced_args (sep : ascii) (items : list (arg * nat)) : string :=
  match items with
  | [] => ""
  | (a, n) :: rest =>
      arg_text a
      +:+ match rest with
          | [] => run n sep
          | _ :: _ => String sep (run n sep) +:+ spaced_args sep rest
          end
  end.

(** Text with balanced braces: the end, a text followed by more, or a pair
    of braces around such a text followed by more.  [written] is the string
    it stands for, [nest_ok] says that the texts have no brace of their own,
    [depth] is how deep the braces are nested and [resolved] that there is
    no brace at all. *)
Inductive nest : Type :=
| Nend
| Ntext (s : string) (rest : nest)
| Ngroup (inner rest : nest).

Fixpoint written (f : nest) : string :=
  match f with
  | Nend => ""
  | Ntext s r => s +:+ written r
  | Ngroup i r => String "{"%char (written i +:+ String "}"%char (written r))
  end.

Fixpoint nest_ok (f : nest) : Prop :=
  match f with
  | Nend => True
  | Ntext s r => Str.all not_brace s = true ∧ nest_ok r
  | Ngroup i r => nest_ok i ∧ nest_ok r
  end.

Fixpoint depth (f : nest) : nat :=
  match f with
  | Nend => 0
  | Ntext _ r => depth r
  | Ngroup i r => Nat.max (S (depth i)) (depth r)
  end.

Fixpoint resolved (f : nest) : bool :=
  match f with
  | Nend => true
  | Ntext _ r => resolved r
  | Ngroup _ _ => false
  end.

Fixpoint nest_app (f g : nest) : nest :=
  match f with
  | Nend => g
  | Ntext s r => Ntext s (nest_app r g)
  | Ngroup i r => Ngroup i (nest_app r g)
  end.

(** What the scan for brace groups finds in a balanced text: the pairs of
    braces with no brace between them are the matches. *)
Fixpoint tokens (f : nest) : list Re.token :=
  match f with
  | Nend => []
  | Ntext s r => skips s ++ tokens r
  | Ngroup i r =>
      if resolved i then Re.Found (String "{"%char (written i +:+ "}")) :: tokens r
      else Re.Skip "{"%char :: tokens i ++ Re.Skip "}"%char :: tokens r
  end.

(** One level of resolution of a balanced text: every pair of braces with
    no brace between them is replaced by the value that the callback gives
    for it, the balanced text [v], which [vok] accepts; the other pairs of
    braces stay, with what is between them resolved by one level. *)
Inductive pass_step (environ : gmap string string) (env : Env) (vok : nest → Prop)
  : nest → nest → Prop :=
| step_end : pass_step environ env vok Nend Nend
| step_text s r r' :
    pass_step environ env vok r r' →
    pass_step environ env vok (Ntext s r) (Ntext s r')
| step_leaf i v r r' :
    resolved i = true →
    _replace_match environ (String "{"%char (written i +:+ "}")) env
    = Ok (PyStr (written v)) →
    vok v →
    pass_step environ env vok r r' →
    pass_step environ env vok (Ngroup i r) (nest_app v r')
| step_deep i i' r r' :
    resolved i = false →
    pass_step environ env vok i i' →
    pass_step environ env vok r r' →
    pass_step environ env vok (Ngroup i r) (Ngroup i' r').

(** [n] levels of resolution, one after the other. *)
Inductive pass_steps (environ : gmap string string) (env : Env) (vok : nest → Prop)
  : nat → nest → nest → Prop :=
| steps_none f : pass_steps environ env vok 0 f f
| steps_more n f g h :
    pass_step environ env vok f g →
    pass_steps environ env vok n g h →
    pass_steps environ env vok (S n) f h.

(** A value without braces. *)
Definition text_value (v : nest) : Prop := nest_ok v ∧ resolved v = true.

(** The levels of resolution computed, for values without braces. *)
Fixpoint resolve_level (environ : gmap string string) (env : Env) (f : nest)
  : option nest :=
  match f with
  | Nend => Some Nend
  | Ntext s r => r' ← resolve_level environ env r; Some (Ntext s r')
  | Ngroup i r =>
      if resolved i then
        match _replace_match environ (String "{"%char (written i +:+ "}")) env with
        | Ok (PyStr v) =>
            if Str.all not_brace v
            then r' ← resolve_level environ env r; Some (Ntext v r')
            else None
        | _ => None
        end
      else
        i' ← resolve_level environ env i;
        r' ← resolve_level environ env r;
        Some (Ngroup i' r')
  end.

Fixpoint resolve_levels (environ : gmap string string) (env : Env) (n : nat)
    (f : nest) : option nest :=
  match n with
  | 0 => Some f
  | S k => g ← resolve_level environ env f; resolve_levels environ env k g
  end.

(** ** Strings *)

Section StringFacts.

Implicit Types (s t u : string) (c : ascii) (p : ascii → bool).

Lemma app_cons c s t : String c s +:+ t = String c (s +:+ t).
Proof. reflexivity. Qed.

Lemma app_empty_l s : "" +:+ s = s.
Proof. reflexivity. Qed.

Lemma app_empty_r s : s +:+ "" = s.
Proof. induction s as [|c s IH]; [done|]. by rewrite app_cons, IH. Qed.

Lemma app_assoc_s s t u : (s +:+ t) +:+ u = s +:+ (t +:+ u).
Proof. induction s as [|c s IH]; [done|]. by rewrite !app_cons, IH. Qed.

Lemma length_app_s s t :
  String.length (s +:+ t) = String.length s + String.length t.
Proof. induction s as [|c s IH]; [done|]. rewrite app_cons. simpl. by rewrite IH. Qed.

Lemma app_eq_empty s t : s +:+ t = "" → s = "" ∧ t = "".
Proof. destruct s; [done|]. rewrite app_cons. discriminate. Qed.

Lemma all_app p s t : Str.all p (s +:+ t) = Str.all p s && Str.all p t.
Proof.
  induction s as [|c s IH]; [done|].
  rewrite app_cons. simpl. rewrite IH. by destruct (p c).
Qed.

Lemma span_split p s a b : Str.span p s = (a, b) → s = a +:+ b.
Proof.
  revert a b. induction s as [|c s IH]; intros a b; simpl.
  - by intros [= <- <-].
  - destruct (p c).
    + destruct (Str.span p s) as [a' b'] eqn:E. intros [= <- <-].
      rewrite app_cons. f_equal. by apply IH.
    + by intros [= <- <-].
Qed.

Lemma span_all p s a b : Str.span p s = (a, b) → Str.all p a = true.
Proof.
  revert a b. induction s as [|c s IH]; intros a b; simpl.
  - by intros [= <- <-].
  - destruct (p c) eqn:Hc.
    + destruct (Str.span p s) as [a' b'] eqn:E. intros [= <- <-].
      simpl. rewrite Hc. simpl. by eapply IH.
    + by intros [= <- <-].
Qed.

Lemma span_stop p s a c b : Str.span p s = (a, String c b) → p c = false.
Proof.
  revert a. induction s as [|d s IH]; intros a; simpl.
  - discriminate.
  - destruct (p d) eqn:Hd.
    + destruct (Str.span p s) as [a' b'] eqn:E. intros [= <- ->]. by eapply IH.
    + intros [= <- -> ->]. done.
Qed.

(** [span] on a run followed by a character that ends it. *)
Lemma span_app_stop p a c b :
  Str.all p a = true → p c = false →
  Str.span p (a +:+ String c b) = (a, String c b).
Proof.
  intros Ha Hc. induction a as [|d a IH]; simpl.
  - by rewrite Hc.
  - simpl in Ha. apply andb_prop in Ha as [Hd Ha].
    rewrite Hd, (IH Ha). done.
Qed.

Lemma span_all_id p a : Str.all p a = true → Str.span p a = (a, "").
Proof.
  intros Ha. induction a as [|d a IH]; simpl; [done|].
  simpl in Ha. apply andb_prop in Ha as [Hd Ha]. by rewrite Hd, (IH Ha).
Qed.

Lemma all_impl p (q : ascii → bool) s :
  (∀ c, p c = true → q c = true) → Str.all p s = true → Str.all q s = true.
Proof.
  intros Hpq. induction s as [|c s IH]; simpl; [done|].
  intros [Hc Hs]%andb_prop. by rewrite (Hpq _ Hc), (IH Hs).
Qed.

End StringFacts.

(** ** The scan of [re] *)

Section ReFacts.

Implicit Types (s t : string) (p : Re.pattern).

Lemma braces_inv s g rest :
  Re.braces s = Some (g, rest) →
  ∃ body, Str.all not_brace body = true
          ∧ g = String "{"%char (body +:+ "}") ∧ s = g +:+ rest.
Proof.
  unfold Re.braces. destruct s as [|c t]; [done|].
  destruct (ascii_dec c "{"%char) as [->|Hc].
  - destruct (Str.span _ t) as [body r] eqn:E.
    destruct r as [|d rest']; [done|].
    destruct (ascii_dec d "}"%char) as [->|Hd].
    + intros [= <- <-]. exists body. split; [by eapply span_all|]. split; [done|].
      rewrite app_cons, app_assoc_s. f_equal. by apply span_split in E.
    + intros H. exfalso. revert H.
      destruct d as [[] [] [] [] [] [] [] []]; done.
  - intros H. exfalso. revert H.
    destruct c as [[] [] [] [] [] [] [] []]; done.
Qed.

Lemma braces_consuming : consuming Re.braces.
Proof.
  intros s g rest H. apply braces_inv in H as (body & _ & -> & ->). done.
Qed.

Lemma spaced_inv c s g rest :
  Re.spaced c s = Some (g, rest) →
  ∃ w1 w2, Str.all Str.isspace w1 = true ∧ Str.all Str.isspace w2 = true
           ∧ g = w1 +:+ String c w2 ∧ s = g +:+ rest.
Proof.
  unfold Re.spaced. destruct (Str.span Str.isspace s) as [w1 r] eqn:E1.
  destruct r as [|d r']; [done|].
  destruct (Ascii.eqb_spec d c) as [->|]; [|done].
  destruct (Str.span Str.isspace r') as [w2 rest'] eqn:E2.
  intros [= <- <-]. exists w1, w2.
  split; [by eapply span_all|]. split; [by eapply span_all|]. split; [done|].
  apply span_split in E1, E2. subst.
  by rewrite app_assoc_s, app_cons.
Qed.

Lemma spaced_consuming c : consuming (Re.spaced c).
Proof.
  intros s g rest H. apply spaced_inv in H as (w1 & w2 & _ & _ & -> & ->).
  split; [done|]. by destruct w1.
Qed.

Lemma alt_consuming p q : consuming p → consuming q → consuming (Re.alt p q).
Proof.
  intros Hp Hq s g rest. unfold Re.alt.
  destruct (p s) as [[g' r']|] eqn:E.
  - intros [= <- <-]. by apply Hp.
  - apply Hq.
Qed.

Lemma consuming_shorter p s g rest :
  consuming p → p s = Some (g, rest) → String.length rest < String.length s.
Proof.
  intros Hp H. apply Hp in H as [-> Hg]. rewrite length_app_s.
  destruct g; [done|]. simpl. lia.
Qed.

Lemma scan_fuel_enough p :
  consuming p →
  ∀ n m s, String.length s < n → String.length s < m →
           Re.scan_fuel n p s = Re.scan_fuel m p s.
Proof.
  intros Hp. induction n as [|n IH]; intros m s Hn Hm; [lia|].
  destruct m as [|m]; [lia|]. simpl.
  destruct (p s) as [[g rest]|] eqn:E.
  - pose proof (consuming_shorter _ _ _ _ Hp E). f_equal. apply IH; lia.
  - destruct s as [|c t]; [done|]. simpl in *. f_equal. apply IH; lia.
Qed.

(** The defining equation of the scan, free of fuel. *)
Lemma scan_eq p s :
  consuming p →
  Re.scan p s =
    match p s with
    | Some (g, rest) => Re.Found g :: Re.scan p rest
    | None =>
        match s with
        | EmptyString => []
        | String c t => Re.Skip c :: Re.scan p t
        end
    end.
Proof.
  intros Hp. unfold Re.scan at 1. simpl.
  destruct (p s) as [[g rest]|] eqn:E.
  - pose proof (consuming_shorter _ _ _ _ Hp E). f_equal.
    apply scan_fuel_enough; [done|lia|lia].
  - destruct s as [|c t]; [done|]. f_equal.
Qed.

(** Induction along the scan. *)
Lemma scan_ind p (P : string → Prop) :
  consuming p →
  (∀ s, (∀ g rest, p s = Some (g, rest) → P rest) →
        (p s = None → ∀ c t, s = String c t → P t) → P s) →
  ∀ s, P s.
Proof.
  intros Hp Hstep s.
  remember (String.length s) as n eqn:Hn.
  revert s Hn. induction (lt_wf n) as [n _ IH]. intros s ->.
  apply Hstep.
  - intros g rest E. eapply IH; [|done]. by eapply consuming_shorter.
  - intros _ c t ->. eapply IH; [|done]. simpl. lia.
Qed.

End ReFacts.

(** ** The examples of the docstrings and of the specification *)

Section Examples.

Example parse_envlist_doc :
  parse_envlist "{py26,py27}-django{15,16}, py32"
  = ["py26-django15"; "py26-django16"; "py27-django15"; "py27-django16"; "py32"].
Proof. vm_compute; reflexivity. Qed.

Example expand_curlys_doc : expand_curlys "py{26, 27}" = ["py26"; "py27"].
Proof. vm_compute; reflexivity. Qed.

Example expand_curlys_empty_group : expand_curlys "{}" = [""].
Proof. vm_compute; reflexivity. Qed.

Example split_out_of_braces_top_level :
  _split_out_of_braces "py{26, 27}-django{15, 16}, py32"
  = ["py{26, 27}-django{15, 16}"; "py32"].
Proof. vm_compute; reflexivity. Qed.

Example replace_braces_doc :
  replace_braces (<["USER" := "andy"]> ∅)
    "echo {posargs:{env:USER:} passed no posargs}" (bare_env "py27")
  = Ok "echo andy passed no posargs".
Proof. vm_compute; reflexivity. Qed.

Example replace_braces_defaults :
  replace_braces ∅ "echo {env:USER:nobody} passed {posargs:none}" (bare_env "py27")
  = Ok "echo nobody passed none".
Proof. vm_compute; reflexivity. Qed.

Example replace_braces_attribute :
  replace_braces ∅ "{ name }/{[testenv]deps}" tox_env
  = Ok ("py34-foo/docformatter" +:+ String newline (String newline "nose")).
Proof. vm_compute; reflexivity. Qed.

Example replace_braces_not_a_string :
  replace_braces ∅ "{options}" tox_env = Raise TypeError.
Proof. vm_compute; reflexivity. Qed.

End Examples.

(** ** Strings without a match *)

Section NoMatch.

Implicit Types (s t : string) (p : Re.pattern).

Lemma bind_ok {A B} (f : A → result B) (a : A) : (Ok a ≫= f) = f a.
Proof. reflexivity. Qed.

Lemma bind_raise {A B} (f : A → result B) (e : exn) : (Raise e ≫= f) = Raise e.
Proof. reflexivity. Qed.

Lemma has_group_cons c s : has_group s → has_group (String c s).
Proof.
  intros (pre & g & post & Hg & ->). exists (String c pre), g, post. done.
Qed.

Lemma has_group_app_l pre s : has_group s → has_group (pre +:+ s).
Proof.
  induction pre as [|c pre IH]; [done|]. intros H. rewrite app_cons.
  by apply has_group_cons, IH.
Qed.

Lemma braces_is_group s g rest : Re.braces s = Some (g, rest) → is_group g.
Proof. intros (body & Hb & -> & _)%braces_inv. by exists body. Qed.

Lemma braces_has_group s g rest : Re.braces s = Some (g, rest) → has_group s.
Proof.
  intros H. pose proof (braces_is_group _ _ _ H) as Hg.
  apply braces_inv in H as (body & _ & _ & ->). by exists "", g, rest.
Qed.

Lemma scan_skips p s :
  consuming p →
  (∀ pre t, s = pre +:+ t → p t = None) →
  Re.scan p s = skips s.
Proof.
  intros Hp. induction s as [|c s IH]; intros Hno.
  - rewrite scan_eq by done. by rewrite (Hno "" "").
  - rewrite scan_eq by done. rewrite (Hno "" (String c s)) by done.
    simpl. f_equal. apply IH. intros pre t ->.
    by apply (Hno (String c pre) t).
Qed.

Lemma scan_braces_no_group s : ¬ has_group s → Re.scan Re.braces s = skips s.
Proof.
  intros Hs. apply scan_skips; [apply braces_consuming|].
  intros pre t ->. destruct (Re.braces t) as [[g rest]|] eqn:E; [|done].
  destruct Hs. by eapply has_group_app_l, braces_has_group.
Qed.

Lemma locate_skips pos s : Re.locate pos (skips s) = [].
Proof. revert pos. induction s as [|c s IH]; intros pos; simpl; [done|apply IH]. Qed.

Lemma collect_skips repl s : Re.collect repl (skips s) = Ok (literals s).
Proof. induction s as [|c s IH]; simpl; [done|]. by rewrite IH. Qed.

Lemma joined_literals s : Re.joined (literals s) = Ok s.
Proof. induction s as [|c s IH]; simpl; [done|]. by rewrite IH. Qed.

Lemma sub_no_group repl s : ¬ has_group s → Re.sub Re.braces repl s = Ok s.
Proof.
  intros Hs. unfold Re.sub. rewrite scan_braces_no_group by done.
  rewrite collect_skips, bind_ok. apply joined_literals.
Qed.

Lemma passes_no_group environ env n s :
  ¬ has_group s → _passes environ n env s = Ok s.
Proof.
  intros Hs. induction n as [|n IH]; simpl; [done|].
  unfold _pass. rewrite sub_no_group by done. by rewrite bind_ok.
Qed.

Lemma finditer_no_group s : ¬ has_group s → Re.finditer Re.braces s = [].
Proof.
  intros Hs. unfold Re.finditer. rewrite scan_braces_no_group by done.
  apply locate_skips.
Qed.

Lemma expand_curlys_no_group s : ¬ has_group s → expand_curlys s = [s].
Proof. intros Hs. unfold expand_curlys. by rewrite finditer_no_group. Qed.

Lemma has_char_app_l c pre s : has_char c s → has_char c (pre +:+ s).
Proof.
  intros (a & b & ->). exists (pre +:+ a), b. by rewrite app_assoc_s.
Qed.

Lemma spaced_has_char c s g rest : Re.spaced c s = Some (g, rest) → has_char c s.
Proof.
  intros (w1 & w2 & _ & _ & -> & ->)%spaced_inv.
  exists w1, (w2 +:+ rest). by rewrite app_assoc_s, app_cons.
Qed.

Lemma scan_spaced_no_char c s :
  ¬ has_char c s → Re.scan (Re.spaced c) s = skips s.
Proof.
  intros Hs. apply scan_skips; [apply spaced_consuming|].
  intros pre t ->. destruct (Re.spaced c t) as [[g rest]|] eqn:E; [|done].
  destruct Hs. by eapply has_char_app_l, spaced_has_char.
Qed.

Lemma pieces_skips s : Re.pieces (skips s) = [s].
Proof. induction s as [|c s IH]; simpl; [done|]. by rewrite IH. Qed.

Lemma split_spaced_no_char c s : ¬ has_char c s → Re.split (Re.spaced c) s = [s].
Proof.
  intros Hs. unfold Re.split. rewrite scan_spaced_no_char by done.
  apply pieces_skips.
Qed.

Lemma split_out_of_braces_plain s :
  ¬ has_group s → ¬ has_char ","%char s → s ≠ "" →
  _split_out_of_braces s = [s].
Proof.
  intros Hg Hc Hs. unfold _split_out_of_braces, Re.finditer.
  rewrite scan_skips.
  - rewrite locate_skips. simpl. by rewrite bool_decide_eq_false_2.
  - apply alt_consuming; [apply braces_consuming|apply spaced_consuming].
  - intros pre t ->. unfold Re.alt.
    destruct (Re.braces t) as [[g rest]|] eqn:E.
    { destruct Hg. by eapply has_group_app_l, braces_has_group. }
    destruct (Re.spaced _ t) as [[g rest]|] eqn:E'; [|done].
    destruct Hc. by eapply has_char_app_l, spaced_has_char.
Qed.

End NoMatch.

(** ** Brace expansion and top-level lists *)

Section Expansion.

Implicit Types (s t : string).

Lemma has_char_all c s :
  has_char c s → Str.all (λ d, negb (Ascii.eqb d c)) s = false.
Proof.
  intros (pre & post & ->). induction pre as [|d pre IH]; simpl.
  - by rewrite Ascii.eqb_refl.
  - rewrite IH. apply andb_false_r.
Qed.

Lemma is_group_open g : is_group g → has_char "{"%char g.
Proof. intros (body & -> & _). by exists "", (body +:+ "}"). Qed.

Lemma has_group_open s : has_group s → has_char "{"%char s.
Proof.
  intros (pre & g & post & Hg & ->). apply has_char_app_l.
  destruct (is_group_open _ Hg) as (a & b & ->).
  exists a, (b +:+ post). by rewrite app_assoc_s, app_cons.
Qed.

Lemma split_loop_nonempty s prev ms :
  Forall (λ t, t ≠ "") (_split_loop s prev ms).
Proof.
  revert prev. induction ms as [|m ms IH]; intros prev; simpl.
  - case_bool_decide; [constructor|]. by repeat constructor.
  - destruct (negb _); [|apply IH].
    apply Forall_app. split; [|apply IH].
    case_bool_decide; [constructor|]. by repeat constructor.
Qed.

(** C9, as stated for the top-level expansion: a string with no brace
    group does not always expand to itself, a comma splits it. *)
Lemma C9_comma_is_split : ¬ (∀ s, ¬ has_group s → bash_expand s = [s]).
Proof.
  intros H. specialize (H "a,b"). assert (bash_expand "a,b" = ["a"; "b"]) as E
    by (vm_compute; reflexivity).
  rewrite E in H. enough (¬ has_group "a,b") as Hn by (specialize (H Hn); done).
  intros Hg%has_group_open%has_char_all. vm_compute in Hg. done.
Qed.

(** C9, amended: on a string with no brace group the brace expander returns
    the one-element list of the string, the top-level expansion does so when
    the string is moreover not empty and has no comma, and resolution returns
    the string for every environment. *)
Theorem C9_no_group_identity (s : string) :
  ¬ has_group s →
  expand_curlys s = [s]
  ∧ (s ≠ "" → ¬ has_char ","%char s → bash_expand s = [s])
  ∧ ∀ environ env, replace_braces environ s env = Ok s.
Proof.
  intros Hs. split; [by apply expand_curlys_no_group|]. split.
  - intros Hne Hc. unfold bash_expand.
    rewrite split_out_of_braces_plain by done. simpl.
    rewrite expand_curlys_no_group by done. done.
  - intros environ env. by apply passes_no_group.
Qed.

Lemma C9_no_group_identity_witness :
  expand_curlys "py27" = ["py27"]
  ∧ bash_expand "py27" = ["py27"]
  ∧ ∀ environ env, replace_braces environ "py27" env = Ok "py27".
Proof.
  assert (¬ has_group "py27") as Hn.
  { intros Hg%has_group_open%has_char_all. vm_compute in Hg. done. }
  destruct (C9_no_group_identity "py27" Hn) as (H1 & H2 & H3).
  split; [exact H1|]. split; [|exact H3].
  apply H2; [done|].
  intros Hc%has_char_all. vm_compute in Hc. done.
Defined.

(** C10: the top-level expansion of the empty string is the empty list, the
    empty segments around leading, trailing and doubled commas yield nothing,
    and every candidate comes from a segment that is not empty. *)
Theorem C10_empty_segments_dropped :
  bash_expand "" = []
  ∧ bash_expand "a,,b" = ["a"; "b"]
  ∧ bash_expand ",a," = ["a"]
  ∧ (∀ s, Forall (λ t, t ≠ "") (_split_out_of_braces s))
  ∧ (∀ s x, x ∈ bash_expand s →
       ∃ t, t ∈ _split_out_of_braces s ∧ t ≠ "" ∧ x ∈ expand_curlys t).
Proof.
  split; [vm_compute; reflexivity|]. split; [vm_compute; reflexivity|].
  split; [vm_compute; reflexivity|]. split.
  - intros s. apply split_loop_nonempty.
  - intros s x Hx. unfold bash_expand in Hx.
    apply list_elem_of_bind in Hx as (t & Hx & Ht).
    exists t. split; [done|]. split; [|done].
    pose proof (split_loop_nonempty s 0
      (Re.finditer (Re.alt Re.braces (Re.spaced ","%char)) s)) as HF.
    rewrite Forall_forall in HF. by apply HF.
Qed.

End Expansion.

(** ** Positional arguments *)

Section Positional.

Lemma until_flag_spec (arguments : list string) :
  ∃ later, arguments = _until_flag arguments ++ later
    ∧ Forall (λ a, Str.startswith "-" a = false) (_until_flag arguments)
    ∧ (∀ a, head later = Some a → Str.startswith "-" a = true).
Proof.
  induction arguments as [|a r (later & E & HF & Hh)]; cbn [_until_flag].
  - exists []. by repeat split.
  - destruct (Str.startswith "-" a) eqn:Ha.
    + exists (a :: r). split; [done|]. split; [constructor|]. by intros ? [= <-].
    + exists later. split; [by rewrite <- app_comm_cons, <- E|].
      split; [by constructor|done].
Qed.

(** C7: after a leading [--] every remaining token is positional, flags
    included; otherwise the positional arguments are the longest prefix of
    tokens none of which starts with [-]. *)
Theorem C7_positional_args (arguments : list string) :
  (∀ rest, arguments = "--" :: rest → positional_args arguments = rest)
  ∧ (head arguments ≠ Some "--" →
       ∃ later, arguments = positional_args arguments ++ later
         ∧ Forall (λ a, Str.startswith "-" a = false) (positional_args arguments)
         ∧ (∀ a, head later = Some a → Str.startswith "-" a = true))
  ∧ positional_args ["arg1"; "arg2"; "--kwarg"] = ["arg1"; "arg2"]
  ∧ positional_args ["--"; "arg1"; "--kwarg"] = ["arg1"; "--kwarg"].
Proof.
  split; [by intros rest ->|]. split; [|by split].
  intros Hh. unfold positional_args. destruct arguments as [|a r].
  - apply until_flag_spec.
  - rewrite bool_decide_eq_false_2; [apply until_flag_spec|]. by intros ->.
Qed.

Lemma C7_positional_args_witness :
  positional_args ["--"; "-v"; "x"] = ["-v"; "x"]
  ∧ ∃ later, ["a"; "-v"; "b"] = positional_args ["a"; "-v"; "b"] ++ later
      ∧ Forall (λ a, Str.startswith "-" a = false) (positional_args ["a"; "-v"; "b"])
      ∧ (∀ a, head later = Some a → Str.startswith "-" a = true).
Proof.
  split.
  - apply (proj1 (C7_positional_args ["--"; "-v"; "x"])). reflexivity.
  - apply (proj1 (proj2 (C7_positional_args ["a"; "-v"; "b"]))). simpl. congruence.
Defined.

End Positional.

(** ** Splitting on a character and on a spaced separator *)

Section Splitting.

Implicit Types (s t l r : string) (c d : ascii).

Lemma no_char_not_has c s : no_char c s → ¬ has_char c s.
Proof. intros H Hc%has_char_all. unfold no_char in H. congruence. Qed.

Lemma split_not_nil c s : Str.split c s ≠ [].
Proof.
  destruct s as [|d s]; simpl; [done|].
  destruct (Ascii.eqb d c); [done|]. by destruct (Str.split c s).
Qed.

Lemma split_no_sep c s : no_char c s → Str.split c s = [s].
Proof.
  unfold no_char. induction s as [|d s IH]; simpl; [done|].
  intros [Hd Hs]%andb_prop. apply negb_true_iff in Hd. rewrite Hd.
  by rewrite (IH Hs).
Qed.

Lemma split_app c l r :
  no_char c l → Str.split c (l +:+ String c r) = l :: Str.split c r.
Proof.
  unfold no_char. induction l as [|d l IH]; simpl.
  - intros _. by rewrite Ascii.eqb_refl.
  - intros [Hd Hl]%andb_prop. apply negb_true_iff in Hd.
    rewrite Hd. by rewrite (IH Hl).
Qed.

Lemma split_parts_no_sep c s : Forall (no_char c) (Str.split c s).
Proof.
  induction s as [|d s IH]; simpl.
  - by repeat constructor.
  - destruct (Ascii.eqb d c) eqn:Hd; [by constructor|].
    destruct (Str.split c s) as [|h q] eqn:E; [by apply split_not_nil in E|].
    inversion IH as [|? ? Hh Hq]; subst. constructor; [|done].
    unfold no_char in *. simpl. by rewrite Hd, Hh.
Qed.

Lemma split_join c (xs : list string) :
  xs ≠ [] → Forall (no_char c) xs →
  Str.split c (Str.join (String c "") xs) = xs.
Proof.
  induction xs as [|x xs IH]; [done|]. intros _ HF.
  inversion HF as [|? ? Hx Hxs]; subst.
  destruct xs as [|y ys].
  - simpl. by apply split_no_sep.
  - change (Str.join (String c "") (x :: y :: ys))
      with (x +:+ String c "" +:+ Str.join (String c "") (y :: ys)).
    rewrite app_cons, app_empty_l, split_app by done.
    f_equal. by apply IH.
Qed.

Lemma rstrip_tail d l : Str.rstrip (String d l) = String d l → Str.rstrip l = l.
Proof.
  simpl. destruct (Str.rstrip l) as [|e q] eqn:E.
  - destruct (Str.isspace d); [done|]. by intros [= <-].
  - by intros [= <-].
Qed.

Lemma rstrip_space_tail d l :
  Str.isspace d = true → Str.rstrip (String d l) = String d l → l ≠ "".
Proof. intros Hd H ->. simpl in H. by rewrite Hd in H. Qed.

Lemma spaced_cons_space c d s :
  Str.isspace d = true → Re.spaced c s = None → Re.spaced c (String d s) = None.
Proof.
  intros Hd. unfold Re.spaced. simpl. rewrite Hd.
  destruct (Str.span Str.isspace s) as [a b]. simpl.
  destruct b as [|e b]; [done|]. destruct (Ascii.eqb e c); [|done].
  by destruct (Str.span Str.isspace b).
Qed.

Lemma spaced_none_prefix c l rest :
  l ≠ "" → Str.rstrip l = l → no_char c l → Re.spaced c (l +:+ rest) = None.
Proof.
  induction l as [|d l IH]; [done|]. intros _ Hr Hc.
  unfold no_char in Hc. simpl in Hc. apply andb_prop in Hc as [Hd Hc].
  apply negb_true_iff in Hd. rewrite app_cons.
  destruct (Str.isspace d) eqn:Hs.
  - apply spaced_cons_space; [done|].
    apply IH; [by eapply rstrip_space_tail|by eapply rstrip_tail|done].
  - unfold Re.spaced. simpl. by rewrite Hs, Hd.
Qed.

Lemma scan_spaced_prefix c l rest :
  Str.rstrip l = l → no_char c l →
  Re.scan (Re.spaced c) (l +:+ rest) = skips l ++ Re.scan (Re.spaced c) rest.
Proof.
  induction l as [|d l IH]; [done|]. intros Hr Hc.
  rewrite scan_eq by apply spaced_consuming.
  rewrite spaced_none_prefix by done. rewrite app_cons. simpl. f_equal.
  apply IH; [by eapply rstrip_tail|].
  unfold no_char in *. simpl in Hc. by apply andb_prop in Hc as [_ Hc].
Qed.

Lemma pieces_not_nil ts : Re.pieces ts ≠ [].
Proof. destruct ts as [|[d|g] ts]; simpl; [done| |done]. by destruct (Re.pieces ts). Qed.

Lemma pieces_skips_found l g ts :
  Re.pieces (skips l ++ Re.Found g :: ts) = l :: Re.pieces ts.
Proof. induction l as [|d l IH]; simpl; [done|]. by rewrite IH. Qed.

Lemma spaced_at_separator c w1 w2 r :
  Str.isspace c = false →
  Str.all Str.isspace w1 = true → Str.all Str.isspace w2 = true →
  Str.lstrip r = r →
  Re.spaced c (w1 +:+ String c (w2 +:+ r)) = Some (w1 +:+ String c w2, r).
Proof.
  intros Hc H1 H2 Hr. unfold Re.spaced.
  rewrite span_app_stop by done. rewrite Ascii.eqb_refl.
  assert (Str.span Str.isspace (w2 +:+ r) = (w2, r)) as ->; [|done].
  destruct r as [|e r].
  - rewrite app_empty_r. by apply span_all_id.
  - apply span_app_stop; [done|]. unfold Str.lstrip in Hr. simpl in Hr.
    destruct (Str.isspace e) eqn:He; [|done].
    destruct (Str.span Str.isspace r) as [a b] eqn:E. simpl in Hr.
    apply span_split in E. apply (f_equal String.length) in Hr, E.
    rewrite length_app_s in E. simpl in Hr. lia.
Qed.

(** The split of [l : r], with white space allowed around the separator,
    when the separator occurs nowhere else. *)
Lemma split_spaced_two c l w1 w2 r :
  Str.isspace c = false →
  no_char c l → Str.rstrip l = l →
  Str.all Str.isspace w1 = true → Str.all Str.isspace w2 = true →
  no_char c r → Str.lstrip r = r →
  Re.split (Re.spaced c) (l +:+ w1 +:+ String c (w2 +:+ r)) = [l; r].
Proof.
  intros Hc Hl Hlr H1 H2 Hr Hrl. unfold Re.split.
  rewrite scan_spaced_prefix by done.
  rewrite scan_eq by apply spaced_consuming.
  rewrite spaced_at_separator by done.
  rewrite pieces_skips_found. f_equal.
  rewrite scan_spaced_no_char by by apply no_char_not_has.
  apply pieces_skips.
Qed.

Lemma split_pieces_all (q : ascii → bool) p s :
  consuming p → Str.all q s = true →
  Forall (λ x, Str.all q x = true) (Re.split p s).
Proof.
  intros Hp. unfold Re.split. revert s.
  refine (scan_ind p (λ s, Str.all q s = true →
    Forall (λ x, Str.all q x = true) (Re.pieces (Re.scan p s))) Hp _).
  intros s IHm IHs Hq. rewrite scan_eq by done.
  destruct (p s) as [[g rest]|] eqn:E.
  - simpl. constructor; [done|]. apply (IHm g rest eq_refl).
    apply Hp in E as [-> _]. rewrite all_app in Hq.
    by apply andb_prop in Hq as [_ ?].
  - destruct s as [|d t]; [by repeat constructor|].
    simpl in Hq. apply andb_prop in Hq as [Hd Ht].
    specialize (IHs eq_refl d t eq_refl Ht). simpl.
    destruct (Re.pieces (Re.scan p t)) as [|h r'].
    + repeat constructor. simpl. by rewrite Hd.
    + inversion IHs; subst. constructor; [|done]. simpl. by rewrite Hd.
Qed.

End Splitting.

(** ** The resolution strategies *)

Section Strategies.

Variable environ : gmap string string.

Implicit Types (s key dflt : string) (env : Env).

Lemma envvar_parts_two key :
  no_char ":"%char key → Str.split ":"%char ("env:" +:+ key) = ["env"; key].
Proof.
  intros Hk. change ("env:" +:+ key) with ("env" +:+ String ":"%char key).
  rewrite split_app by done. by rewrite split_no_sep.
Qed.

Lemma envvar_parts_three key dflt :
  no_char ":"%char key → no_char ":"%char dflt →
  Str.split ":"%char ("env:" +:+ key +:+ ":" +:+ dflt) = ["env"; key; dflt].
Proof.
  intros Hk Hd.
  change ("env:" +:+ key +:+ ":" +:+ dflt)
    with ("env" +:+ String ":"%char (key +:+ String ":"%char dflt)).
  rewrite split_app by done. rewrite split_app by done.
  by rewrite split_no_sep.
Qed.

(** C4: [env:KEY] gives the value of [KEY] and raises the missing-key
    error when [KEY] is unset; [env:KEY:DEFAULT] gives the value of [KEY], or
    [DEFAULT] when [KEY] is unset, and never raises; the resolver of a
    placeholder hands both outcomes on, the missing-key error included.  A
    text of one part, of more than three parts or whose first part is not
    [env] is not for this strategy: the strategy raises no error of its own
    and the resolver goes on to the next strategies, so that its outcome is
    that of the configuration strategy if it applies, else that of the
    positional-arguments strategy if it applies, else the
    unsupported-placeholder error. *)
Theorem C4_replace_envvar env key dflt :
  no_char ":"%char key → no_char ":"%char dflt →
  _replace_envvar environ ("env:" +:+ key) env
  = match environ !! key with
    | Some v => Ok v
    | None => Raise (KeyError key)
    end
  ∧ _replace_envvar environ ("env:" +:+ key +:+ ":" +:+ dflt) env
    = Ok (default dflt (environ !! key))
  ∧ (∀ m, getattr env (Str.strip (Str.inner m)) = None →
       (Str.strip (Str.inner m) = "env:" +:+ key →
        _replace_match environ m env
        = match environ !! key with
          | Some v => Ok (PyStr v)
          | None => Raise (KeyError key)
          end)
       ∧ (Str.strip (Str.inner m) = "env:" +:+ key +:+ ":" +:+ dflt →
          _replace_match environ m env = Ok (PyStr (default dflt (environ !! key)))))
  ∧ ∀ s, (length (Str.split ":"%char s) = 1
          ∨ 3 < length (Str.split ":"%char s)
          ∨ head (Str.split ":"%char s) ≠ Some "env") →
      _replace_envvar environ s env = Raise TypeError
      ∧ (∀ rs, _first_applicable (_replace_envvar environ :: rs) s env
               = _first_applicable rs s env)
      ∧ ∀ m, Str.strip (Str.inner m) = s → getattr env s = None →
          _replace_match environ m env
          = match _replace_config s env with
            | Ok v => Ok (PyStr v)
            | Raise TypeError =>
                match _replace_posargs s env with
                | Ok v => Ok (PyStr v)
                | Raise TypeError =>
                    Raise (NotImplementedError
                             ("{" +:+ s +:+ "} not understood in tox.ini file."))
                | Raise e => Raise e
                end
            | Raise e => Raise e
            end.
Proof.
  intros Hk Hd.
  assert (_replace_envvar environ ("env:" +:+ key) env
          = match environ !! key with
            | Some v => Ok v
            | None => Raise (KeyError key)
            end) as H1.
  { unfold _replace_envvar. rewrite envvar_parts_two by done.
    rewrite bool_decide_eq_false_2; [done|]. simpl. intros [?|[?|?]]; [lia|lia|done]. }
  assert (_replace_envvar environ ("env:" +:+ key +:+ ":" +:+ dflt) env
          = Ok (default dflt (environ !! key))) as H2.
  { unfold _replace_envvar. rewrite envvar_parts_three by done.
    rewrite bool_decide_eq_false_2; [done|]. simpl. intros [?|[?|?]]; [lia|lia|done]. }
  split; [done|]. split; [done|]. split.
  - intros m Ha. split; intros Hm; unfold _replace_match; rewrite Ha, Hm;
      cbn [_first_applicable].
    + rewrite H1. by destruct (environ !! key).
    + by rewrite H2.
  - intros s Hs.
    assert (_replace_envvar environ s env = Raise TypeError) as E.
    { unfold _replace_envvar. rewrite bool_decide_eq_true_2; [done|].
      rewrite <- head_lookup. tauto. }
    split; [done|]. split; [intros rs; simpl; by rewrite E|].
    intros m Hm Ha. unfold _replace_match. rewrite Hm, Ha.
    cbn [_first_applicable]. by rewrite E.
Qed.

End Strategies.

Lemma C4_replace_envvar_witness :
  _replace_envvar ∅ "env:HOME" (bare_env "py27") = Raise (KeyError "HOME")
  ∧ _replace_envvar (<["HOME" := "/root"]> ∅) "env:HOME" (bare_env "py27") = Ok "/root"
  ∧ _replace_envvar ∅ "env:USER:nobody" (bare_env "py27") = Ok "nobody"
  ∧ _replace_match ∅ "{ env:HOME }" (bare_env "py27") = Raise (KeyError "HOME")
  ∧ _replace_match ∅ "{env:USER:nobody}" (bare_env "py27") = Ok (PyStr "nobody")
  ∧ _replace_envvar ∅ "posargs:x" (bare_env "py27") = Raise TypeError
  ∧ _replace_match ∅ "{posargs:x}" (bare_env "py27") = Ok (PyStr "x")
  ∧ _replace_match ∅ "{[testenv]deps}" tox_env
    = Ok (PyStr ("docformatter" +:+ String newline (String newline "nose")))
  ∧ _replace_match ∅ "{env:a:b:c}" (bare_env "py27")
    = Raise (NotImplementedError "{env:a:b:c} not understood in tox.ini file.").
Proof.
  assert (no_char ":"%char "HOME") as Hh by reflexivity.
  assert (no_char ":"%char "USER") as Hu by reflexivity.
  assert (no_char ":"%char "nobody") as Hn by reflexivity.
  assert (no_char ":"%char "") as He by reflexivity.
  assert (head (Str.split ":"%char "posargs:x") ≠ Some "env") as Hp
    by (vm_compute; discriminate).
  assert (length (Str.split ":"%char "[testenv]deps") = 1) as Hc by reflexivity.
  assert (3 < length (Str.split ":"%char "env:a:b:c")) as Hl by (vm_compute; lia).
  refine (conj _ (conj _ (conj _ (conj _ (conj _ (conj _ (conj _ (conj _ _)))))))).
  - exact (proj1 (C4_replace_envvar ∅ (bare_env "py27") "HOME" "" Hh He)).
  - exact (proj1 (C4_replace_envvar (<["HOME" := "/root"]> ∅) (bare_env "py27")
                    "HOME" "" Hh He)).
  - exact (proj1 (proj2 (C4_replace_envvar ∅ (bare_env "py27") "USER" "nobody" Hu Hn))).
  - exact (proj1 (proj1 (proj2 (proj2 (C4_replace_envvar ∅ (bare_env "py27")
                    "HOME" "" Hh He))) "{ env:HOME }" eq_refl) eq_refl).
  - exact (proj2 (proj1 (proj2 (proj2 (C4_replace_envvar ∅ (bare_env "py27")
                    "USER" "nobody" Hu Hn))) "{env:USER:nobody}" eq_refl) eq_refl).
  - exact (proj1 (proj2 (proj2 (proj2 (C4_replace_envvar ∅ (bare_env "py27")
                    "" "" He He))) "posargs:x" (or_intror (or_intror Hp)))).
  - exact (proj2 (proj2 (proj2 (proj2 (proj2 (C4_replace_envvar ∅ (bare_env "py27")
                    "" "" He He))) "posargs:x" (or_intror (or_intror Hp))))
             "{posargs:x}" eq_refl eq_refl).
  - exact (proj2 (proj2 (proj2 (proj2 (proj2 (C4_replace_envvar ∅ tox_env
                    "" "" He He))) "[testenv]deps" (or_introl Hc)))
             "{[testenv]deps}" eq_refl eq_refl).
  - exact (proj2 (proj2 (proj2 (proj2 (proj2 (C4_replace_envvar ∅ (bare_env "py27")
                    "" "" He He))) "env:a:b:c" (or_intror (or_introl Hl))))
             "{env:a:b:c}" eq_refl eq_refl).
Defined.


(** ** Factor conditions and the configuration strategy *)

Section Factors.

Implicit Types (s l r : string) (env : Env).

Lemma isspace_colon : Str.isspace ":"%char = false.
Proof. reflexivity. Qed.

Lemma factor_two_parts s env l r :
  Re.split (Re.spaced ":"%char) s = [l; r] → l ≠ "env" →
  (meets l env → expand_factor_conditions s env = r)
  ∧ (¬ meets l env → expand_factor_conditions s env = "").
Proof.
  intros E Hl. unfold expand_factor_conditions, meets. rewrite E.
  rewrite bool_decide_eq_true_2 by done. split; intros H.
  - by rewrite bool_decide_eq_true_2.
  - by rewrite bool_decide_eq_false_2.
Qed.

Lemma factor_other s env :
  length (Re.split (Re.spaced ":"%char) s) ≠ 2
  ∨ head (Re.split (Re.spaced ":"%char) s) = Some "env" →
  expand_factor_conditions s env = s.
Proof.
  unfold expand_factor_conditions.
  destruct (Re.split _ s) as [|e0 [|e1 [|e2 q]]]; simpl; try done.
  intros [?|[= ->]]; [done|]. by rewrite bool_decide_eq_false_2 by (by intros []).
Qed.

(** C6: when the split of the segment on a colon with optional white space
    around it has exactly two parts and the left one is not [env], the
    evaluator returns the right part if the labels of the left part meet the
    labels of the name of the environment and the empty string if they do
    not; in every other case it returns the segment. *)
Theorem C6_expand_factor_conditions s env :
  (∀ l r, Re.split (Re.spaced ":"%char) s = [l; r] → l ≠ "env" →
      (meets l env → expand_factor_conditions s env = r)
      ∧ (¬ meets l env → expand_factor_conditions s env = ""))
  ∧ (length (Re.split (Re.spaced ":"%char) s) ≠ 2
     ∨ head (Re.split (Re.spaced ":"%char) s) = Some "env" →
     expand_factor_conditions s env = s)
  ∧ (∀ l w1 w2 r,
       no_char ":"%char l → Str.rstrip l = l →
       Str.all Str.isspace w1 = true → Str.all Str.isspace w2 = true →
       no_char ":"%char r → Str.lstrip r = r →
       Re.split (Re.spaced ":"%char) (l +:+ w1 +:+ String ":"%char (w2 +:+ r)) = [l; r])
  ∧ (no_char ":"%char s → expand_factor_conditions s env = s)
  ∧ expand_factor_conditions "py{33,34}: docformatter" (bare_env "py34-foo")
    = "docformatter"
  ∧ expand_factor_conditions "py{33,34}: docformatter" (bare_env "py26-foo") = ""
  ∧ expand_factor_conditions "env:FOO: bar" (bare_env "py34-foo") = "env:FOO: bar".
Proof.
  split; [intros l r; apply factor_two_parts|].
  split; [apply factor_other|].
  split; [intros l w1 w2 r; by apply split_spaced_two|].
  split.
  - intros Hs. apply factor_other. left.
    rewrite split_spaced_no_char by by apply no_char_not_has. simpl. lia.
  - split; [vm_compute; reflexivity|]. split; vm_compute; reflexivity.
Qed.

Lemma C6_expand_factor_conditions_witness :
  expand_factor_conditions "py27 : nose" (bare_env "py27-django") = "nose"
  ∧ expand_factor_conditions "a:b:c" (bare_env "py27") = "a:b:c".
Proof.
  split.
  - assert (Re.split (Re.spaced ":"%char) "py27 : nose" = ["py27"; "nose"]) as E
      by (vm_compute; reflexivity).
    refine (proj1 (proj1 (C6_expand_factor_conditions "py27 : nose"
              (bare_env "py27-django")) "py27" "nose" E _) _).
    + discriminate.
    + unfold meets. vm_compute. discriminate.
  - refine (proj1 (proj2 (C6_expand_factor_conditions "a:b:c" (bare_env "py27"))) _).
    left. vm_compute. lia.
Defined.

Lemma config_shape section option :
  Str.all (λ c, negb (Ascii.eqb c "]"%char) && negb (Ascii.eqb c newline)) section = true →
  no_char newline option →
  _config_shape ("[" +:+ section +:+ "]" +:+ option) = Some (section, option).
Proof.
  intros Hs Ho.
  change ("[" +:+ section +:+ "]" +:+ option)
    with (String "["%char (section +:+ String "]"%char option)).
  unfold _config_shape. fold newline.
  rewrite span_app_stop by done.
  by rewrite span_all_id.
Qed.

Lemma factor_keeps_line env e :
  no_char newline e → no_char newline (expand_factor_conditions e env).
Proof.
  intros He. unfold expand_factor_conditions.
  pose proof (split_pieces_all _ (Re.spaced ":"%char) e
                (spaced_consuming _) He) as HF.
  destruct (Re.split _ e) as [|e0 [|e1 [|e2 q]]]; try done.
  case_bool_decide; [|done]. case_bool_decide; [|done].
  by inversion HF as [|? ? _ [|? ? ? _]].
Qed.

(** C8: on [[SECTION]OPTION] the configuration strategy looks the option
    up, evaluates the factor condition of each line of the value against the
    same environment and joins the results with newlines; a line whose
    condition fails stays as an empty line, so the value and the result have
    the same number of lines. *)
Theorem C8_replace_config env section option raw :
  Str.all (λ c, negb (Ascii.eqb c "]"%char) && negb (Ascii.eqb c newline)) section = true →
  no_char newline option →
  config_get env section option = Some raw →
  ∃ out,
    _replace_config ("[" +:+ section +:+ "]" +:+ option) env = Ok out
    ∧ out = Str.join (String newline "")
              (map (λ e, expand_factor_conditions e env) (Str.split newline raw))
    ∧ Str.split newline out
      = map (λ e, expand_factor_conditions e env) (Str.split newline raw)
    ∧ length (Str.split newline out) = length (Str.split newline raw)
    ∧ ∀ i line l r,
        Str.split newline raw !! i = Some line →
        Re.split (Re.spaced ":"%char) line = [l; r] → l ≠ "env" → ¬ meets l env →
        Str.split newline out !! i = Some "".
Proof.
  intros Hs Ho Hraw. eexists. split.
  { unfold _replace_config. rewrite config_shape by done. rewrite Hraw.
    fold newline. reflexivity. }
  split; [done|].
  assert (Str.split newline
            (Str.join (String newline "")
               (map (λ e, expand_factor_conditions e env) (Str.split newline raw)))
          = map (λ e, expand_factor_conditions e env) (Str.split newline raw)) as E.
  { apply split_join.
    - intros Hnil%fmap_nil_inv. by apply split_not_nil in Hnil.
    - apply Forall_fmap. eapply Forall_impl; [apply split_parts_no_sep|].
      intros e He. by apply factor_keeps_line. }
  split; [done|]. split; [by rewrite E, length_map|].
  intros i line l r Hi Hl Hne Hm. rewrite E, list_lookup_fmap, Hi. simpl.
  f_equal. by apply (factor_two_parts line env l r).
Qed.

End Factors.

Lemma C8_replace_config_witness :
  ∃ out, _replace_config "[testenv]deps" tox_env = Ok out
         ∧ length (Str.split newline out) = 3
         ∧ Str.split newline out !! 1 = Some "".
Proof.
  destruct (C8_replace_config tox_env "testenv" "deps" deps_value
              eq_refl eq_refl eq_refl) as (out & H1 & _ & _ & H4 & H5).
  exists out. split; [exact H1|]. split; [rewrite H4; reflexivity|].
  apply (H5 1 "py26: unittest2" "py26" "unittest2");
    [reflexivity|vm_compute; reflexivity|discriminate|].
  unfold meets. vm_compute. intros H. by apply H.
Defined.

(** ** The positional-arguments strategy *)

Section Posargs.

Implicit Types (s dflt : string) (env : Env).

Lemma posargs_parts dflt :
  no_char ":"%char dflt → Str.lstrip dflt = dflt →
  Re.split (Re.spaced ":"%char) ("posargs:" +:+ dflt) = ["posargs"; dflt].
Proof.
  intros Hd Hl.
  change ("posargs:" +:+ dflt)
    with ("posargs" +:+ "" +:+ String ":"%char ("" +:+ dflt)).
  by apply split_spaced_two.
Qed.

(** The form with a default: the positional arguments joined by single
    spaces when that is not empty, the default otherwise. *)
Lemma replace_posargs_default env dflt :
  no_char ":"%char dflt → Str.lstrip dflt = dflt →
  _replace_posargs ("posargs:" +:+ dflt) env
  = if bool_decide (Str.join " " (positional_args (options env)) ≠ "")
    then Ok (Str.join " " (positional_args (options env)))
    else Ok dflt.
Proof.
  intros Hd Hl. unfold _replace_posargs. rewrite posargs_parts by done.
  rewrite bool_decide_eq_true_2 by done. done.
Qed.

(** The bare form with positional arguments present. *)
Lemma replace_posargs_bare_some env :
  Str.join " " (positional_args (options env)) ≠ "" →
  _replace_posargs "posargs" env = Ok (Str.join " " (positional_args (options env))).
Proof.
  intros H. unfold _replace_posargs.
  change (Re.split (Re.spaced ":"%char) "posargs") with ["posargs"].
  rewrite bool_decide_eq_true_2 by done. by rewrite bool_decide_eq_true_2.
Qed.

(** The bare form with no positional argument: the index [1] is out of range. *)
Lemma replace_posargs_bare_none env :
  Str.join " " (positional_args (options env)) = "" →
  _replace_posargs "posargs" env = Raise IndexError.
Proof.
  intros H. unfold _replace_posargs.
  change (Re.split (Re.spaced ":"%char) "posargs") with ["posargs"].
  rewrite bool_decide_eq_true_2 by done. rewrite H.
  by rewrite bool_decide_eq_false_2 by (by intros []).
Qed.

(** C5, on the code: the bare placeholder with no positional argument
    raises [IndexError], in the strategy and through the resolver, while the
    form with a default and the bare form with arguments present resolve. *)
Theorem C5_bare_posargs_raises :
  _replace_posargs "posargs" (bare_env "py27") = Raise IndexError
  ∧ replace_braces ∅ "{posargs}" (bare_env "py27") = Raise IndexError
  ∧ replace_braces ∅ "{posargs:}" (bare_env "py27") = Ok ""
  ∧ replace_braces ∅ "{posargs:none}" (bare_env "py27") = Ok "none"
  ∧ replace_braces ∅ "{posargs}" tox_env = Ok "arg1 arg2"
  ∧ replace_braces ∅ "{posargs:none}" tox_env = Ok "arg1 arg2"
  ∧ replace_braces ∅ "{posargs:a:b}" (bare_env "py27") = Ok "a".
Proof. repeat split; vm_compute; reflexivity. Qed.

End Posargs.

(** ** One pass of the resolver *)

Section Pass.

Implicit Types (s t pre post body : string).

Lemma not_brace_open : not_brace "{"%char = false.
Proof. reflexivity. Qed.

Lemma not_brace_close : not_brace "}"%char = false.
Proof. reflexivity. Qed.

Lemma not_brace_false c : not_brace c = false → c = "{"%char ∨ c = "}"%char.
Proof.
  unfold not_brace, Re.is_brace. intros H%negb_false_iff%orb_prop.
  destruct H as [H|H]; apply Ascii.eqb_eq in H; auto.
Qed.

Lemma braces_not_open c t : c ≠ "{"%char → Re.braces (String c t) = None.
Proof.
  intros Hc. unfold Re.braces.
  destruct c as [[] [] [] [] [] [] [] []]; done.
Qed.

Lemma braces_group body post :
  Str.all not_brace body = true →
  Re.braces (String "{"%char (body +:+ String "}"%char post))
  = Some (String "{"%char (body +:+ "}"), post).
Proof.
  intros Hb. unfold Re.braces.
  change (λ c, negb (Re.is_brace c)) with not_brace.
  by rewrite span_app_stop by done.
Qed.

Lemma braces_app_some pre g r rest :
  Re.braces pre = Some (g, r) → Re.braces (pre +:+ rest) = Some (g, r +:+ rest).
Proof.
  intros (body & Hb & -> & ->)%braces_inv.
  rewrite !app_cons, !app_assoc_s, app_cons, app_empty_l.
  by apply braces_group.
Qed.

(** A failed attempt stays failed when the text that follows opens a brace. *)
Lemma braces_app_none c t rest :
  Re.braces (String c t) = None →
  Re.braces (String c t +:+ String "{"%char rest) = None.
Proof.
  rewrite app_cons. destruct (ascii_dec c "{"%char) as [->|Hc];
    [|by rewrite !braces_not_open].
  unfold Re.braces. change (λ c, negb (Re.is_brace c)) with not_brace.
  destruct (Str.span not_brace t) as [body r] eqn:E.
  pose proof (span_all _ _ _ _ E) as Hb.
  pose proof (span_split _ _ _ _ E) as ->.
  destruct r as [|d r].
  - intros _. rewrite app_empty_r. by rewrite span_app_stop.
  - pose proof (span_stop _ _ _ _ _ E) as Hd.
    apply not_brace_false in Hd as [->| ->]; [|done].
    intros _. rewrite app_assoc_s, app_cons. by rewrite span_app_stop.
Qed.

Lemma scan_braces_app pre rest :
  Re.scan Re.braces (pre +:+ String "{"%char rest)
  = Re.scan Re.braces pre ++ Re.scan Re.braces (String "{"%char rest).
Proof.
  revert pre.
  refine (scan_ind Re.braces (λ pre,
    Re.scan Re.braces (pre +:+ String "{"%char rest)
    = Re.scan Re.braces pre ++ Re.scan Re.braces (String "{"%char rest))
    braces_consuming _).
  intros pre IHm IHs.
  rewrite (scan_eq _ pre) by apply braces_consuming.
  destruct (Re.braces pre) as [[g r]|] eqn:E.
  - rewrite scan_eq by apply braces_consuming.
    rewrite (braces_app_some _ _ _ _ E). simpl. f_equal. by apply (IHm g r).
  - destruct pre as [|c t]; [done|].
    rewrite scan_eq by apply braces_consuming.
    rewrite braces_app_none by done. rewrite app_cons. simpl. f_equal.
    by apply (IHs eq_refl c t).
Qed.

(** The scan around one brace group. *)
Lemma scan_braces_group pre body post :
  Str.all not_brace body = true →
  Re.scan Re.braces (pre +:+ String "{"%char (body +:+ String "}"%char post))
  = Re.scan Re.braces pre
    ++ Re.Found (String "{"%char (body +:+ "}")) :: Re.scan Re.braces post.
Proof.
  intros Hb. rewrite scan_braces_app. f_equal.
  rewrite scan_eq by apply braces_consuming. by rewrite braces_group.
Qed.

Lemma collect_app repl ts1 ts2 :
  Re.collect repl (ts1 ++ ts2)
  = (items1 ← Re.collect repl ts1;
     items2 ← Re.collect repl ts2; mret (items1 ++ items2)).
Proof.
  induction ts1 as [|[c|g] ts1 IH]; simpl.
  - by destruct (Re.collect repl ts2).
  - rewrite IH. destruct (Re.collect repl ts1); [|done]. simpl.
    by destruct (Re.collect repl ts2).
  - destruct (repl g); [|done]. simpl. rewrite IH.
    destruct (Re.collect repl ts1); [|done]. simpl.
    by destruct (Re.collect repl ts2).
Qed.

Lemma joined_app items1 items2 :
  Re.joined (items1 ++ items2)
  = (x ← Re.joined items1; y ← Re.joined items2; mret (x +:+ y)).
Proof.
  induction items1 as [|[v| |] items1 IH]; simpl.
  - by destruct (Re.joined items2).
  - rewrite IH. destruct (Re.joined items1); [|done]. simpl.
    destruct (Re.joined items2); [|done]. simpl. by rewrite app_assoc_s.
  - done.
  - done.
Qed.

Lemma take_app_length a b : Str.take (String.length a) (a +:+ b) = a.
Proof. induction a as [|c a IH]; simpl; [by destruct b|]. by rewrite IH. Qed.

Lemma inner_group body : Str.inner (String "{"%char (body +:+ "}")) = body.
Proof.
  unfold Str.inner, Str.slice. simpl. rewrite length_app_s. simpl.
  replace (String.length body + 1 - 0 - 1) with (String.length body) by lia.
  apply take_app_length.
Qed.

End Pass.

(** ** Placeholders that no strategy understands *)

Section Unsupported.

Variable environ : gmap string string.

Implicit Types (s t pre post body : string) (env : Env).

Lemma replace_match_unsupported env body :
  unsupported environ env (Str.strip body) →
  _replace_match environ (String "{"%char (body +:+ "}")) env
  = Raise (NotImplementedError
             ("{" +:+ Str.strip body +:+ "} not understood in tox.ini file.")).
Proof.
  intros (Ha & He & Hc & Hp). unfold _replace_match.
  rewrite inner_group, Ha. simpl. by rewrite He, Hc, Hp.
Qed.

(** An error of the callback at a group ends the pass with that error when
    the groups before it have been given a value. *)
Lemma pass_raises_at env pre body post e :
  resolves environ env pre → Str.all not_brace body = true →
  _replace_match environ (String "{"%char (body +:+ "}")) env = Raise e →
  _pass environ env (pre +:+ String "{"%char (body +:+ String "}"%char post))
  = Raise e.
Proof.
  intros [items Hpre] Hb He. unfold _pass, Re.sub.
  rewrite scan_braces_group by done. rewrite collect_app, Hpre.
  simpl. by rewrite He.
Qed.

End Unsupported.

(** C3, as stated: a group that no strategy understands does not always
    give the unsupported-placeholder error; the error of an earlier group,
    here a missing environment variable, is the one raised, and it does not
    name the group. *)
Lemma C3_earlier_error_wins :
  unsupported ∅ (bare_env "py27") (Str.strip "foo")
  ∧ replace_braces ∅ ("{env:UNSET}" +:+ "{" +:+ "foo" +:+ "}" +:+ "") (bare_env "py27")
    = Raise (KeyError "UNSET")
  ∧ ¬ mentions "UNSET" "foo"
  ∧ ¬ (∀ environ env pre body post,
         Str.all not_brace body = true →
         unsupported environ env (Str.strip body) →
         ∃ msg, replace_braces environ (pre +:+ "{" +:+ body +:+ "}" +:+ post) env
                = Raise (NotImplementedError msg)).
Proof.
  assert (unsupported ∅ (bare_env "py27") (Str.strip "foo")) as Hu
    by (repeat split; vm_compute; reflexivity).
  split; [done|]. split; [vm_compute; reflexivity|]. split.
  - intros (a & b & E).
    assert (no_char "f"%char "UNSET") as Hn by reflexivity.
    apply (no_char_not_has _ _ Hn). rewrite E. by exists a, ("oo" +:+ b).
  - intros H.
    destruct (H ∅ (bare_env "py27") "{env:UNSET}" "foo" "" eq_refl Hu) as [msg Hm].
    vm_compute in Hm. discriminate.
Qed.

(** ** Nested placeholders and the depth cap *)

Section Depth.

Variable environ : gmap string string.

Implicit Types (s t x y : string) (env : Env) (ds front back : list string).

Lemma lstrip_nospace s :
  Str.all (λ c, negb (Str.isspace c)) s = true → Str.lstrip s = s.
Proof.
  unfold Str.lstrip. destruct s as [|c s]; simpl; [done|].
  intros [Hc _]%andb_prop. apply negb_true_iff in Hc. by rewrite Hc.
Qed.

Lemma rstrip_nospace s :
  Str.all (λ c, negb (Str.isspace c)) s = true → Str.rstrip s = s.
Proof.
  induction s as [|c s IH]; simpl; [done|].
  intros [Hc Hs]%andb_prop. apply negb_true_iff in Hc.
  rewrite (IH Hs), Hc. by destruct s.
Qed.

Lemma strip_nospace s :
  Str.all (λ c, negb (Str.isspace c)) s = true → Str.strip s = s.
Proof.
  intros H. unfold Str.strip. rewrite lstrip_nospace by done.
  by apply rstrip_nospace.
Qed.

Lemma plain_nospace s : plain s → Str.all (λ c, negb (Str.isspace c)) s = true.
Proof.
  apply all_impl. unfold plain_char. by intros c [_ ?]%andb_prop.
Qed.

Lemma plain_no_colon s : plain s → no_char ":"%char s.
Proof.
  apply all_impl. unfold plain_char. by intros c [[_ ?]%andb_prop _]%andb_prop.
Qed.

Lemma plain_not_brace s : plain s → Str.all not_brace s = true.
Proof.
  apply all_impl. unfold plain_char. by intros c [[? _]%andb_prop _]%andb_prop.
Qed.

Lemma plain_app x y : plain x → plain y → plain (x +:+ y).
Proof. unfold plain. intros Hx Hy. by rewrite all_app, Hx, Hy. Qed.

(** One pass over a string with a single brace group. *)
Lemma pass_single_group env pre body post v :
  ¬ has_group pre → ¬ has_group post → Str.all not_brace body = true →
  _replace_match environ (String "{"%char (body +:+ "}")) env = Ok (PyStr v) →
  _pass environ env (pre +:+ String "{"%char (body +:+ String "}"%char post))
  = Ok (pre +:+ v +:+ post).
Proof.
  intros Hpre Hpost Hb Hv. unfold _pass, Re.sub.
  rewrite scan_braces_group by done.
  rewrite !scan_braces_no_group by done.
  rewrite collect_app, collect_skips. simpl. rewrite Hv. simpl.
  rewrite collect_skips. simpl.
  rewrite joined_app, joined_literals. simpl. by rewrite joined_literals.
Qed.

Lemma is_group_close g : is_group g → has_char "}"%char g.
Proof. intros (body & -> & _). exists (String "{"%char body), "". by rewrite app_cons. Qed.

Lemma has_group_close s : has_group s → has_char "}"%char s.
Proof.
  intros (pre & g & post & Hg & ->). apply has_char_app_l.
  destruct (is_group_close _ Hg) as (a & b & ->).
  exists a, (b +:+ post). by rewrite app_assoc_s, app_cons.
Qed.

Lemma not_brace_no_group s : Str.all not_brace s = true → ¬ has_group s.
Proof.
  intros Hs Hg%has_group_open. revert Hg. apply no_char_not_has.
  revert Hs. apply all_impl. intros c Hc.
  destruct (Ascii.eqb_spec c "{"%char) as [->|]; done.
Qed.

Lemma plain_no_close x : plain x → no_char "}"%char x.
Proof.
  apply all_impl. unfold plain_char. intros c [[Hc _]%andb_prop _]%andb_prop.
  destruct (Ascii.eqb_spec c "}"%char) as [->|]; done.
Qed.

Lemma no_close_no_group s : no_char "}"%char s → ¬ has_group s.
Proof. intros Hs Hg%has_group_close. by apply (no_char_not_has _ _ Hs). Qed.

Lemma no_open_no_group s : no_char "{"%char s → ¬ has_group s.
Proof. intros Hs Hg%has_group_open. by apply (no_char_not_has _ _ Hs). Qed.

Lemma plain_no_group x : plain x → ¬ has_group x.
Proof. intros Hx. by apply no_close_no_group, plain_no_close. Qed.

Lemma passes_add env a b s :
  _passes environ (a + b) env s
  = (t ← _passes environ a env s; _passes environ b env t).
Proof.
  revert s. induction a as [|a IH]; intros s; simpl; [done|].
  destruct (_pass environ env s) as [s'|e]; [|done]. simpl. apply IH.
Qed.

(** Passes after the last brace group has gone change nothing. *)
Lemma passes_fixed env k n s t :
  k ≤ n → _passes environ k env s = Ok t → ¬ has_group t →
  _passes environ n env s = Ok t.
Proof.
  intros Hk Hs Ht. replace n with (k + (n - k)) by lia.
  rewrite passes_add, Hs, bind_ok. by apply passes_no_group.
Qed.

Lemma not_brace_no_close x : Str.all not_brace x = true → no_char "}"%char x.
Proof.
  apply all_impl. intros c Hc.
  destruct (Ascii.eqb_spec c "}"%char) as [->|]; done.
Qed.

Lemma not_brace_no_open x : Str.all not_brace x = true → no_char "{"%char x.
Proof.
  apply all_impl. intros c Hc.
  destruct (Ascii.eqb_spec c "{"%char) as [->|]; done.
Qed.

End Depth.

(** ** Errors in any of the passes *)

Section Failure.

Variable environ : gmap string string.

Implicit Types (s t pre post body : string) (env : Env) (e : exn).

(** The passes raise exactly when one of them does, after the passes before
    it have returned. *)
Lemma passes_raise_iff env n s e :
  _passes environ n env s = Raise e
  ↔ ∃ k t, k < n ∧ _passes environ k env s = Ok t ∧ _pass environ env t = Raise e.
Proof.
  revert s. induction n as [|n IH]; intros s.
  - split; [done|]. intros (k & t & Hk & _). lia.
  - cbn [_passes]. destruct (_pass environ env s) as [s'|e'] eqn:E.
    + rewrite bind_ok, IH. split.
      * intros (k & t & Hk & Hs & Ht). exists (S k), t.
        split; [lia|]. split; [|done]. cbn [_passes]. by rewrite E.
      * intros (k & t & Hk & Hs & Ht). destruct k as [|k].
        { injection Hs as <-. congruence. }
        cbn [_passes] in Hs. rewrite E, bind_ok in Hs.
        exists k, t. split; [lia|done].
    + rewrite bind_raise. split.
      * intros [= <-]. exists 0, s. split; [lia|done].
      * intros (k & t & Hk & Hs & Ht). destruct k as [|k].
        { injection Hs as <-. congruence. }
        cbn [_passes] in Hs. by rewrite E in Hs.
Qed.

(** C3, amended: resolution raises exactly when one of its five passes
    raises, after the passes before it have returned, and then no string is
    returned.  When in such a pass every brace group before a group gets a
    value, an error of the callback at that group is the outcome of the
    whole resolution; if the trimmed inner text of the group is understood
    by none of the four strategies, that error is the
    unsupported-placeholder error and its message contains the trimmed
    text. *)
Theorem C3_unsupported_placeholder env s :
  (∀ e, replace_braces environ s env = Raise e
        ↔ ∃ k t, k < DEPTH ∧ _passes environ k env s = Ok t
                 ∧ _pass environ env t = Raise e)
  ∧ ∀ k pre body post,
      k < DEPTH →
      _passes environ k env s = Ok (pre +:+ "{" +:+ body +:+ "}" +:+ post) →
      resolves environ env pre → Str.all not_brace body = true →
      (∀ e, _replace_match environ (String "{"%char (body +:+ "}")) env = Raise e →
            replace_braces environ s env = Raise e)
      ∧ (unsupported environ env (Str.strip body) →
         replace_braces environ s env
         = Raise (NotImplementedError
                    ("{" +:+ Str.strip body +:+ "} not understood in tox.ini file."))
         ∧ mentions ("{" +:+ Str.strip body +:+ "} not understood in tox.ini file.")
                    (Str.strip body)).
Proof.
  split; [intros e; apply passes_raise_iff|].
  intros k pre body post Hk Hs Hpre Hb.
  assert (∀ e, _replace_match environ (String "{"%char (body +:+ "}")) env = Raise e →
            replace_braces environ s env = Raise e) as Hfirst.
  { intros e He. apply passes_raise_iff.
    exists k, (pre +:+ "{" +:+ body +:+ "}" +:+ post). split; [done|]. split; [done|].
    change (pre +:+ "{" +:+ body +:+ "}" +:+ post)
      with (pre +:+ String "{"%char (body +:+ String "}"%char post)).
    by apply pass_raises_at. }
  split; [done|]. intros Hu. split.
  - by apply Hfirst, replace_match_unsupported.
  - by exists "{", "} not understood in tox.ini file.".
Qed.

End Failure.

Lemma C3_unsupported_placeholder_witness :
  replace_braces ∅ "echo {posargs:x} { foo }{env:UNSET}" (bare_env "py27")
  = Raise (NotImplementedError "{foo} not understood in tox.ini file.")
  ∧ replace_braces ∅ "{foo{posargs:x}}" (bare_env "py27")
    = Raise (NotImplementedError "{foox} not understood in tox.ini file.")
  ∧ replace_braces ∅ "{a{b{c{d{posargs:{env:UNSET}}}}}}" (bare_env "py27")
    = Raise (KeyError "UNSET")
  ∧ replace_braces ∅ "{bad{posargs:{posargs:{posargs:{posargs:x}}}}}" (bare_env "py27")
    = Raise (NotImplementedError "{badx} not understood in tox.ini file.").
Proof.
  assert (resolves ∅ (bare_env "py27") "echo {posargs:x} ") as Hpre
    by (eexists; vm_compute; reflexivity).
  assert (resolves ∅ (bare_env "py27") "") as Hnil
    by (eexists; vm_compute; reflexivity).
  assert (resolves ∅ (bare_env "py27") "{a{b{c{d{posargs:") as Hopen
    by (eexists; vm_compute; reflexivity).
  assert (unsupported ∅ (bare_env "py27") (Str.strip " foo ")) as Hu
    by (repeat split; vm_compute; reflexivity).
  assert (unsupported ∅ (bare_env "py27") (Str.strip "foox")) as Hu2
    by (repeat split; vm_compute; reflexivity).
  assert (0 < DEPTH) as H0 by (unfold DEPTH; lia).
  assert (1 < DEPTH) as H1 by (unfold DEPTH; lia).
  assert (4 < DEPTH) as H4 by (unfold DEPTH; lia).
  assert (unsupported ∅ (bare_env "py27") (Str.strip "badx")) as Hu4
    by (repeat split; vm_compute; reflexivity).
  refine (conj _ (conj _ (conj _ _))).
  - exact (proj1 (proj2 (proj2 (C3_unsupported_placeholder ∅ (bare_env "py27")
                    "echo {posargs:x} { foo }{env:UNSET}")
                    0 "echo {posargs:x} " " foo " "{env:UNSET}" H0 eq_refl Hpre eq_refl)
                  Hu)).
  - exact (proj1 (proj2 (proj2 (C3_unsupported_placeholder ∅ (bare_env "py27")
                    "{foo{posargs:x}}")
                    1 "" "foox" "" H1 eq_refl Hnil eq_refl)
                  Hu2)).
  - exact (proj1 (proj2 (C3_unsupported_placeholder ∅ (bare_env "py27")
                    "{a{b{c{d{posargs:{env:UNSET}}}}}}")
                    0 "{a{b{c{d{posargs:" "env:UNSET" "}}}}}" H0 eq_refl Hopen eq_refl)
             (KeyError "UNSET") eq_refl).
  - exact (proj1 (proj2 (proj2 (C3_unsupported_placeholder ∅ (bare_env "py27")
                    "{bad{posargs:{posargs:{posargs:{posargs:x}}}}}")
                    4 "" "badx" "" H4 eq_refl Hnil eq_refl)
                  Hu4)).
Defined.

(** C2, as stated: of six nested placeholders the innermost is not the one
    left unexpanded; it is resolved in the first pass and the outermost is
    what comes back. *)
Lemma C2_innermost_is_expanded :
  replace_braces ∅
    "{posargs:a{posargs:b{posargs:c{posargs:d{posargs:e{posargs:f}}}}}}"
    (bare_env "py27")
  = Ok "{posargs:abcdef}"
  ∧ ¬ mentions "{posargs:abcdef}" "{posargs:f}".
Proof.
  split; [vm_compute; reflexivity|].
  intros (a & b & E). destruct a as [|c a].
  - vm_compute in E. discriminate.
  - rewrite app_cons in E. injection E as _ E.
    assert (no_char "{"%char "posargs:abcdef}") as Hn by reflexivity.
    apply (no_char_not_has _ _ Hn). rewrite E.
    exists a, ("posargs:f}" +:+ b). reflexivity.
Qed.

(** ** The product of the brace groups *)

Section Product.

Implicit Types (s t pre lit body last : string) (tpl : list (string * string)).

Lemma drop_app_length a b : Str.drop (String.length a) (a +:+ b) = b.
Proof. induction a as [|c a IH]; simpl; [by destruct b|done]. Qed.

Lemma locate_skips_app pos l ts :
  Re.locate pos (skips l ++ ts) = Re.locate (pos + String.length l) ts.
Proof.
  revert pos. induction l as [|c l IH]; intros pos; simpl.
  - by rewrite Nat.add_0_r.
  - rewrite IH. f_equal. lia.
Qed.

Lemma locate_render pos tpl last :
  well_formed tpl last →
  Re.locate pos (Re.scan Re.braces (render tpl last)) = locs pos tpl.
Proof.
  intros [Htpl Hlast]. revert pos.
  induction Htpl as [|[lit body] tpl [Hlit Hbody] _ IH]; intros pos.
  - simpl. rewrite scan_braces_no_group by done. apply locate_skips.
  - simpl in Hlit, Hbody. cbn [render locs].
    rewrite scan_braces_group by done.
    rewrite scan_braces_no_group by done.
    rewrite locate_skips_app. cbn [Re.locate]. by rewrite IH.
Qed.

Lemma foldl_reverse {A B} (f : A → B → A) (a : A) (l : list B) :
  foldl f a (reverse l) = foldr (λ x acc, f acc x) a l.
Proof.
  induction l as [|x l IH]; [done|].
  by rewrite reverse_cons, foldl_app, IH.
Qed.

Lemma bind_bind_fmap {X} (alts : list X) (P : list string)
    (f g : string → string) (h k : X → string → string) :
  (∀ a t, h a (f t) = g (k a t)) →
  (a ← alts; e ← f <$> P; [h a e]) = g <$> (a ← alts; t ← P; [k a t]).
Proof.
  intros Hhk. induction alts as [|a alts IH]; [done|].
  rewrite !bind_cons, fmap_app, IH. f_equal.
  clear IH. induction P as [|t P IHP]; [done|]. csimpl. by rewrite Hhk, IHP.
Qed.

Lemma replace_curly_step pre lit body (P : list string) :
  _replace_curly
    ((λ t, (pre +:+ lit +:+ String "{"%char (body +:+ "}")) +:+ t) <$> P)
    {| Re.start := String.length pre + String.length lit;
       Re.stop := String.length pre + String.length lit
                  + String.length (String "{"%char (body +:+ "}"));
       Re.group := String "{"%char (body +:+ "}") |}
  = (λ t, pre +:+ t)
    <$> (alt ← Re.split (Re.spaced ","%char) body; t ← P; [lit +:+ alt +:+ t]).
Proof.
  unfold _replace_curly. cbn [Re.start Re.stop Re.group].
  rewrite inner_group.
  set (g := String "{"%char (body +:+ "}")).
  apply (bind_bind_fmap _ P (λ t, (pre +:+ lit +:+ g) +:+ t) (λ t, pre +:+ t)
           (λ alt e, Str.take (String.length pre + String.length lit) e +:+ alt
                     +:+ Str.drop (String.length pre + String.length lit
                                   + String.length g) e)
           (λ alt t, lit +:+ alt +:+ t)).
  intros a t.
  assert (String.length pre + String.length lit = String.length (pre +:+ lit))
    as -> by (by rewrite length_app_s).
  assert (String.length (pre +:+ lit) + String.length g
          = String.length (pre +:+ lit +:+ g)) as ->
    by (rewrite !length_app_s; lia).
  rewrite drop_app_length.
  replace ((pre +:+ lit +:+ g) +:+ t) with ((pre +:+ lit) +:+ (g +:+ t))
    by (by rewrite !app_assoc_s).
  rewrite take_app_length. by rewrite !app_assoc_s.
Qed.

Lemma fold_render pre tpl last :
  foldr (λ m acc, _replace_curly acc m) [pre +:+ render tpl last]
        (locs (String.length pre) tpl)
  = (λ t, pre +:+ t) <$> product tpl last.
Proof.
  revert pre. induction tpl as [|[lit body] tpl IH]; intros pre; [done|].
  cbn [render locs product foldr].
  pose (pre' := pre +:+ lit +:+ String "{"%char (body +:+ "}")).
  assert (pre +:+ lit +:+ String "{"%char (body +:+ String "}"%char (render tpl last))
          = pre' +:+ render tpl last) as ->.
  { unfold pre'. by rewrite !app_assoc_s, !app_cons, !app_assoc_s. }
  assert (String.length pre + String.length lit
          + String.length (String "{"%char (body +:+ "}"))
          = String.length pre') as E.
  { unfold pre'. rewrite !length_app_s. lia. }
  replace (locs (String.length pre + String.length lit
                 + String.length (String "{"%char (body +:+ "}"))) tpl)
    with (locs (String.length pre') tpl) by (by rewrite E).
  rewrite IH. apply replace_curly_step.
Qed.

(** The brace expander on a rendered template: every combination of the
    alternatives, the leftmost group in the outer loop, so that the
    alternatives of the rightmost group vary fastest. *)
Lemma expand_curlys_product tpl last :
  well_formed tpl last → expand_curlys (render tpl last) = product tpl last.
Proof.
  intros Hwf. unfold expand_curlys, Re.finditer.
  rewrite locate_render by done. rewrite foldl_reverse.
  pose proof (fold_render "" tpl last) as H.
  change ("" +:+ render tpl last) with (render tpl last) in H.
  change (String.length "") with 0 in H. rewrite H.
  rewrite <- (list_fmap_id (product tpl last)) at 2.
  by apply list_fmap_ext.
Qed.

End Product.

(** C1: a top-level comma-separated list expands segment by segment, in
    segment order, each segment to the product of its brace groups with the
    alternatives of the rightmost group varying fastest; in general and on
    the two inputs of the specification. *)
Theorem C1_bash_expand_product :
  bash_expand "{py26,py27}-django{15,16}, py32"
  = ["py26-django15"; "py26-django16"; "py27-django15"; "py27-django16"; "py32"]
  ∧ expand_curlys "py{26,27}" = ["py26"; "py27"]
  ∧ _split_out_of_braces "{py26,py27}-django{15,16}, py32"
    = ["{py26,py27}-django{15,16}"; "py32"]
  ∧ (∀ s, bash_expand s = concat (map expand_curlys (_split_out_of_braces s)))
  ∧ (∀ tpl last, well_formed tpl last →
       expand_curlys (render tpl last) = product tpl last).
Proof.
  split; [vm_compute; reflexivity|]. split; [vm_compute; reflexivity|].
  split; [vm_compute; reflexivity|]. split.
  - intros s. unfold bash_expand.
    induction (_split_out_of_braces s) as [|t ts IH]; [done|].
    rewrite bind_cons, IH. done.
  - apply expand_curlys_product.
Qed.

Lemma C1_bash_expand_product_witness :
  expand_curlys (render [("", "py26,py27"); ("-django", "15,16")] "")
  = ["py26-django15"; "py26-django16"; "py27-django15"; "py27-django16"].
Proof.
  refine (proj2 (proj2 (proj2 (proj2 C1_bash_expand_product)))
            [("", "py26,py27"); ("-django", "15,16")] "" _).
  split; [|by apply no_open_no_group].
  repeat constructor; by apply no_open_no_group.
Defined.

(** ** Speech marks *)

Section Speechmarks.

Implicit Types (s t p a b body : string) (c q : ascii).

Lemma startswith_app p b : Str.startswith p (p +:+ b) = true.
Proof.
  induction p as [|c p IH]; [by destruct b|].
  rewrite app_cons. simpl. by rewrite Ascii.eqb_refl, IH.
Qed.

Lemma length_drop n s : String.length (Str.drop n s) = String.length s - n.
Proof.
  revert n. induction s as [|c s IH]; intros [|n]; simpl; auto.
Qed.

Lemma drop_all n s : String.length s ≤ n → Str.drop n s = "".
Proof.
  revert n. induction s as [|c s IH]; intros [|n]; simpl; try done; try lia.
  intros H. apply IH. lia.
Qed.

Lemma take_all n s : String.length s ≤ n → Str.take n s = s.
Proof.
  revert n. induction s as [|c s IH]; intros [|n]; simpl; try done; try lia.
  intros H. rewrite IH; [done|lia].
Qed.

Lemma endswith_app a p : Str.endswith p (a +:+ p) = true.
Proof.
  unfold Str.endswith. rewrite length_app_s.
  replace (String.length a + String.length p - String.length p)
    with (String.length a) by lia.
  rewrite drop_app_length, String.eqb_refl.
  rewrite andb_true_r. apply Nat.leb_le. lia.
Qed.

Lemma unwrap_app p body : Str.unwrap (String.length p) (p +:+ body +:+ p) = body.
Proof.
  unfold Str.unwrap, Str.slice. rewrite drop_app_length, !length_app_s.
  replace (String.length p + (String.length body + String.length p)
           - String.length p - String.length p)
    with (String.length body) by lia.
  apply take_app_length.
Qed.

Lemma strip_first_unquoted marks t :
  Forall (λ sm, Str.startswith sm t = false) marks → _strip_first marks t = t.
Proof. induction 1 as [|sm marks Hsm _ IH]; simpl; [done|]. by rewrite Hsm. Qed.

(** A text that does not begin with a quote is returned as it is. *)
Lemma strip_speechmarks_unquoted t :
  (∀ c t', t = String c t' → is_quote c = false) → _strip_speechmarks t = t.
Proof.
  intros Ht. apply strip_first_unquoted.
  assert (∀ q r, is_quote q = true → Str.startswith (String q r) t = false) as H.
  { intros q r Hq. destruct t as [|c t']; [done|]. simpl.
    destruct (Ascii.eqb_spec q c) as [->|]; [|done].
    by rewrite (Ht c t' eq_refl) in Hq. }
  repeat constructor; by apply H.
Qed.

Lemma is_quote_inv q : is_quote q = true → q = Re.dquote ∨ q = Re.squote.
Proof.
  unfold is_quote. intros [H|H]%orb_prop; apply Ascii.eqb_eq in H; auto.
Qed.

(** One pair of quotes around a text free of that quote is taken off. *)
Lemma strip_speechmarks_quoted q body :
  is_quote q = true → no_char q body →
  _strip_speechmarks (String q (body +:+ String q "")) = body.
Proof.
  intros Hq Hb.
  assert (Str.startswith (String q (String q (String q "")))
            (String q (body +:+ String q "")) = false) as H3.
  { destruct body as [|d body].
    - change ("" +:+ String q "") with (String q ""). simpl.
      by rewrite !Ascii.eqb_refl.
    - unfold no_char in Hb. simpl in Hb. apply andb_prop in Hb as [Hd _].
      apply negb_true_iff in Hd. rewrite app_cons. simpl.
      by rewrite Ascii.eqb_refl, (Ascii.eqb_sym q d), Hd. }
  assert (Str.startswith (String q "") (String q (body +:+ String q ""))
          && Str.endswith (String q "") (String q (body +:+ String q "")) = true) as H1.
  { simpl. rewrite Ascii.eqb_refl. simpl.
    change (String q (body +:+ String q "")) with (String q body +:+ String q "").
    apply endswith_app. }
  assert (Str.unwrap 1 (String q (body +:+ String q "")) = body) as Hu.
  { apply (unwrap_app (String q "") body). }
  unfold _strip_speechmarks, speechmarks.
  destruct (is_quote_inv q Hq) as [-> | ->].
  - cbn [_strip_first]. rewrite H3.
    change (Str.startswith (String Re.squote (String Re.squote (String Re.squote "")))
              (String Re.dquote (body +:+ String Re.dquote ""))) with false.
    cbn [andb].
    change (Str.startswith (String Re.squote "")
              (String Re.dquote (body +:+ String Re.dquote ""))) with false.
    cbn [andb]. rewrite H1. exact Hu.
  - cbn [_strip_first]. rewrite H3. cbn [andb].
    change (Str.startswith (String Re.dquote (String Re.dquote (String Re.dquote "")))
              (String Re.squote (body +:+ String Re.squote ""))) with false.
    cbn [andb]. rewrite H1. exact Hu.
Qed.

(** Three quotes at both ends are taken off whatever is between them. *)
Lemma strip_speechmarks_triple q body :
  is_quote q = true →
  _strip_speechmarks (String q (String q (String q ""))
                      +:+ body +:+ String q (String q (String q ""))) = body.
Proof.
  intros Hq. set (m := String q (String q (String q ""))).
  assert (Str.startswith m (m +:+ body +:+ m)
          && Str.endswith m (m +:+ body +:+ m) = true) as H.
  { rewrite startswith_app. rewrite <- app_assoc_s. by rewrite endswith_app. }
  pose proof (unwrap_app m body) as Hu.
  unfold _strip_speechmarks, speechmarks.
  destruct (is_quote_inv q Hq) as [-> | ->]; subst m.
  - cbn [_strip_first].
    change (Str.startswith (String Re.squote (String Re.squote (String Re.squote "")))
              (String Re.dquote (String Re.dquote (String Re.dquote ""))
               +:+ body +:+ String Re.dquote (String Re.dquote (String Re.dquote ""))))
      with false.
    cbn [andb]. rewrite H. exact Hu.
  - cbn [_strip_first]. rewrite H. exact Hu.
Qed.

End Speechmarks.

(** ** Splitting a command line *)

Section SplitOn.

Implicit Types (s t w body tail : string) (c q sep : ascii).

Lemma quoted_match q body rest :
  no_char q body →
  Re.quoted q (String q (body +:+ String q rest))
  = Some (String q (body +:+ String q ""), rest).
Proof.
  intros Hb. unfold Re.quoted. rewrite Ascii.eqb_refl.
  rewrite span_app_stop; [done|exact Hb|]. by rewrite Ascii.eqb_refl.
Qed.

Lemma quoted_inv q s g rest :
  Re.quoted q s = Some (g, rest) → s = g +:+ rest ∧ g ≠ "".
Proof.
  unfold Re.quoted. destruct s as [|c t]; [done|].
  destruct (Ascii.eqb_spec c q) as [->|]; [|done].
  destruct (Str.span _ t) as [body r] eqn:E.
  destruct r as [|d rest']; [done|]. intros [= <- <-].
  pose proof (span_stop _ _ _ _ _ E) as Hd. apply negb_false_iff in Hd.
  apply Ascii.eqb_eq in Hd as ->. apply span_split in E as ->.
  split; [|done]. by rewrite app_cons, app_assoc_s.
Qed.

Lemma unit_consuming sep : consuming (Re.unit sep).
Proof.
  intros s g rest. unfold Re.unit. destruct s as [|c t]; [done|].
  destruct (Re.word_char sep c).
  - by intros [= <- <-].
  - unfold Re.alt. destruct (Re.quoted Re.dquote _) as [[g' r']|] eqn:E.
    + intros [= <- <-]. by apply quoted_inv in E.
    + apply quoted_inv.
Qed.

Lemma units_enough sep n m s :
  String.length s ≤ n → String.length s ≤ m →
  Re.units_fuel n sep s = Re.units_fuel m sep s.
Proof.
  revert m s. induction n as [|n IH]; intros m s Hn Hm.
  - destruct s; [|simpl in Hn; lia]. by destruct m.
  - destruct m as [|m].
    + destruct s; [|simpl in Hm; lia]. done.
    + simpl. destruct (Re.unit sep s) as [[u rest]|] eqn:E; [|done].
      pose proof (consuming_shorter _ _ _ _ (unit_consuming sep) E).
      rewrite (IH m rest); [done|lia|lia].
Qed.

(** The repetition, free of fuel. *)
Lemma units_eq sep s :
  Re.units_fuel (String.length s) sep s
  = match Re.unit sep s with
    | Some (u, rest) =>
        let '(m, r) := Re.units_fuel (String.length rest) sep rest in (u +:+ m, r)
    | None => ("", s)
    end.
Proof.
  destruct s as [|c t]; [done|].
  change (Re.units_fuel (String.length (String c t)) sep (String c t))
    with (match Re.unit sep (String c t) with
          | Some (u, rest) =>
              let '(m, r) := Re.units_fuel (String.length t) sep rest in (u +:+ m, r)
          | None => ("", String c t)
          end).
  destruct (Re.unit sep (String c t)) as [[u rest]|] eqn:E; [|done].
  pose proof (consuming_shorter _ _ _ _ (unit_consuming sep) E) as Hlt.
  simpl in Hlt. rewrite (units_enough sep (String.length t) (String.length rest));
    [done|lia|lia].
Qed.

Lemma units_split sep n s m rest :
  Re.units_fuel n sep s = (m, rest) → s = m +:+ rest.
Proof.
  revert s m rest. induction n as [|n IH]; intros s m rest; simpl.
  - by intros [= <- <-].
  - destruct (Re.unit sep s) as [[u r]|] eqn:E; [|by intros [= <- <-]].
    destruct (Re.units_fuel n sep r) as [m' r'] eqn:E'. intros [= <- <-].
    apply IH in E'. apply unit_consuming in E as [-> _].
    by rewrite E', app_assoc_s.
Qed.

Lemma words_consuming sep : consuming (Re.words sep).
Proof.
  intros s g rest. unfold Re.words.
  destruct (Re.units_fuel _ sep s) as [m r] eqn:E.
  destruct m as [|c m]; [done|]. intros [= <- <-].
  split; [by eapply units_split|done].
Qed.

Lemma word_char_sep sep : sep ≠ "\"%char → Re.word_char sep sep = false.
Proof.
  intros Hs. unfold Re.word_char. rewrite Ascii.eqb_refl.
  destruct (Ascii.eqb_spec sep "\"%char); [done|]. simpl. apply andb_false_r.
Qed.

Lemma word_char_not_quote sep c : Re.word_char sep c = true → is_quote c = false.
Proof.
  unfold Re.word_char, is_quote.
  intros [[H1 H2]%andb_prop _]%andb_prop.
  apply negb_true_iff in H1, H2. by rewrite H1, H2.
Qed.

Lemma quote_not_word_char sep q : is_quote q = true → Re.word_char sep q = false.
Proof.
  intros Hq. destruct (Re.word_char sep q) eqn:E; [|done].
  apply word_char_not_quote in E. congruence.
Qed.

(** At the end of the text and at a separator the repetition stops. *)
Lemma units_stop sep tail :
  sep_ok sep → (tail = "" ∨ ∃ r, tail = String sep r) →
  Re.units_fuel (String.length tail) sep tail = ("", tail).
Proof.
  intros [Hq Hb] [->|[r ->]]; [done|]. rewrite units_eq.
  unfold Re.unit. rewrite word_char_sep by done.
  unfold Re.alt, Re.quoted, is_quote in *. apply orb_false_elim in Hq as [H1 H2].
  by rewrite H1, H2.
Qed.

Lemma units_word sep w tail :
  Str.all (Re.word_char sep) w = true →
  Re.units_fuel (String.length (w +:+ tail)) sep (w +:+ tail)
  = let '(m, r) := Re.units_fuel (String.length tail) sep tail in (w +:+ m, r).
Proof.
  induction w as [|c w IH]; intros Hw.
  - rewrite app_empty_l. by destruct (Re.units_fuel _ sep tail).
  - simpl in Hw. apply andb_prop in Hw as [Hc Hw].
    rewrite units_eq, app_cons. unfold Re.unit. rewrite Hc.
    rewrite (IH Hw). by destruct (Re.units_fuel _ sep tail).
Qed.

Lemma units_quoted sep q body tail :
  is_quote q = true → no_char q body →
  Re.units_fuel (String.length (String q (body +:+ String q tail))) sep
    (String q (body +:+ String q tail))
  = let '(m, r) := Re.units_fuel (String.length tail) sep tail in
    (String q (body +:+ String q "") +:+ m, r).
Proof.
  intros Hq Hb. rewrite units_eq. unfold Re.unit.
  rewrite quote_not_word_char by done.
  assert (Re.alt (Re.quoted Re.dquote) (Re.quoted Re.squote)
            (String q (body +:+ String q tail))
          = Some (String q (body +:+ String q ""), tail)) as ->; [|done].
  unfold Re.alt. destruct (is_quote_inv q Hq) as [-> | ->].
  - by rewrite quoted_match.
  - change (Re.quoted Re.dquote (String Re.squote (body +:+ String Re.squote tail)))
      with (@None (string * string)).
    by rewrite quoted_match.
Qed.

Lemma arg_text_not_empty sep a : arg_ok sep a → arg_text a ≠ "".
Proof. destruct a as [w|q body]; simpl; [by intros [? _]|done]. Qed.

(** A word or a quoted text is one match, up to the separator or the end. *)
Lemma words_arg sep a tail :
  sep_ok sep → arg_ok sep a → (tail = "" ∨ ∃ r, tail = String sep r) →
  Re.words sep (arg_text a +:+ tail) = Some (arg_text a, tail).
Proof.
  intros Hsep Ha Htail. unfold Re.words.
  assert (Re.units_fuel (String.length (arg_text a +:+ tail)) sep (arg_text a +:+ tail)
          = (arg_text a, tail)) as ->.
  { destruct a as [w|q body]; simpl in Ha; destruct Ha as [H1 H2].
    - cbn [arg_text]. rewrite units_word by done.
      rewrite units_stop by done. by rewrite app_empty_r.
    - cbn [arg_text]. rewrite app_cons, app_assoc_s, app_cons, app_empty_l.
      rewrite units_quoted by done. rewrite units_stop by done.
      by rewrite app_empty_r. }
  pose proof (arg_text_not_empty sep a Ha). by destruct (arg_text a).
Qed.

Lemma words_at_sep sep r : sep_ok sep → Re.words sep (String sep r) = None.
Proof.
  intros Hsep. unfold Re.words. rewrite units_stop; [done|done|]. right. by exists r.
Qed.

Lemma strip_arg sep a : arg_ok sep a → _strip_speechmarks (arg_text a) = arg_value a.
Proof.
  destruct a as [w|q body]; simpl; intros [H1 H2].
  - apply strip_speechmarks_unquoted. intros c t' ->. simpl in H2.
    apply andb_prop in H2 as [Hc _]. by eapply word_char_not_quote.
  - by apply strip_speechmarks_quoted.
Qed.

(** Words and quoted texts joined by the separator come back as the words
    and the texts without their quotes, separators inside quotes kept. *)
Lemma split_on_join sep (args : list arg) :
  sep_ok sep → Forall (arg_ok sep) args →
  split_on (Str.join (String sep "") (map arg_text args)) sep
  = map arg_value args.
Proof.
  intros Hsep. unfold split_on.
  induction 1 as [|a args Ha Hargs IH]; [done|].
  destruct args as [|b args].
  - cbn [map Str.join]. rewrite scan_eq by apply words_consuming.
    rewrite <- (app_empty_r (arg_text a)) at 1.
    rewrite words_arg by auto. cbn [Re.captures map].
    rewrite (strip_arg sep) by done. f_equal.
  - change (Str.join (String sep "") (map arg_text (a :: b :: args)))
      with (arg_text a +:+ String sep ""
            +:+ Str.join (String sep "") (map arg_text (b :: args))).
    rewrite app_cons, app_empty_l.
    rewrite scan_eq by apply words_consuming.
    rewrite words_arg; [|done|done|right; by eexists].
    rewrite scan_eq by apply words_consuming.
    rewrite words_at_sep by done. cbn [Re.captures map].
    rewrite (strip_arg sep) by done. f_equal. exact IH.
Qed.

(** A separator in front gives no token. *)
Lemma split_on_leading_sep sep s :
  sep_ok sep → split_on (String sep s) sep = split_on s sep.
Proof.
  intros Hsep. unfold split_on. rewrite scan_eq by apply words_consuming.
  by rewrite words_at_sep.
Qed.

(** A run of separators in front gives no token. *)
Lemma split_on_run sep n s :
  sep_ok sep → split_on (run n sep +:+ s) sep = split_on s sep.
Proof.
  intros Hsep. induction n as [|n IH]; cbn [run].
  - by rewrite app_empty_l.
  - by rewrite app_cons, split_on_leading_sep.
Qed.

(** A word or a quoted text before a separator or the end is one token. *)
Lemma split_on_arg sep a tail :
  sep_ok sep → arg_ok sep a → (tail = "" ∨ ∃ r, tail = String sep r) →
  split_on (arg_text a +:+ tail) sep = arg_value a :: split_on tail sep.
Proof.
  intros Hsep Ha Htail. unfold split_on.
  rewrite scan_eq by apply words_consuming.
  rewrite words_arg by done. cbn [Re.captures map].
  by rewrite (strip_arg sep).
Qed.

(** Runs of separators in front, between the items and at the end give no
    token. *)
Lemma split_on_spaced sep (items : list (arg * nat)) :
  sep_ok sep → Forall (λ an, arg_ok sep (fst an)) items →
  ∀ lead, split_on (run lead sep +:+ spaced_args sep items) sep
          = map (λ an, arg_value (fst an)) items.
Proof.
  intros Hsep. induction 1 as [|[a n] items Ha _ IH]; intros lead.
  - rewrite split_on_run by done. done.
  - rewrite split_on_run by done. cbn [spaced_args map fst].
    simpl in Ha. destruct items as [|b items].
    + rewrite split_on_arg; [|done|done|].
      * f_equal. rewrite <- (app_empty_r (run n sep)).
        by rewrite split_on_run.
      * destruct n as [|n]; [by left|right; by eexists].
    + rewrite split_on_arg; [|done|done|right; by eexists].
      f_equal. apply (IH (S n)).
Qed.

End SplitOn.

(** ** Top-level segments *)

Section Segments.

Implicit Types (s t a cur lit body last rest : string) (ts : list Re.token).

Lemma scan_text p s : consuming p → text (Re.scan p s) = s.
Proof.
  intros Hp. revert s.
  refine (scan_ind p (λ s, text (Re.scan p s) = s) Hp _).
  intros s IHm IHs. rewrite scan_eq by done.
  destruct (p s) as [[g rest]|] eqn:E.
  - cbn [text]. rewrite (IHm g rest eq_refl). by apply Hp in E as [-> _].
  - destruct s as [|c t]; [done|]. cbn [text]. by rewrite (IHs eq_refl c t eq_refl).
Qed.

Lemma drop_app_le n a b :
  n ≤ String.length a → Str.drop n (a +:+ b) = Str.drop n a +:+ b.
Proof.
  revert n. induction a as [|c a IH]; intros [|n] Hn; simpl in *; try done; try lia.
  apply IH. lia.
Qed.

Lemma slice_prefix n a b :
  n ≤ String.length a → Str.slice n (String.length a) (a +:+ b) = Str.drop n a.
Proof.
  intros Hn. unfold Str.slice. rewrite drop_app_le by done.
  rewrite <- length_drop. apply take_app_length.
Qed.

(** The generator, which cuts by offsets, gathers the same segments as the
    walk over the tokens. *)
Lemma split_loop_segs ts :
  ∀ a prev, prev ≤ String.length a →
    _split_loop (a +:+ text ts) prev (Re.locate (String.length a) ts)
    = segs (Str.drop prev a) ts.
Proof.
  induction ts as [|[c|g] ts IH]; intros a prev Hp.
  - cbn [text Re.locate _split_loop segs]. by rewrite app_empty_r.
  - cbn [text Re.locate segs].
    replace (a +:+ String c (text ts)) with ((a +:+ String c "") +:+ text ts)
      by (by rewrite app_assoc_s).
    replace (S (String.length a)) with (String.length (a +:+ String c ""))
      by (rewrite length_app_s; simpl; lia).
    rewrite IH by (rewrite length_app_s; lia).
    by rewrite drop_app_le.
  - cbn [text Re.locate _split_loop Re.group Re.start Re.stop segs].
    replace (a +:+ g +:+ text ts) with ((a +:+ g) +:+ text ts)
      by (by rewrite app_assoc_s).
    rewrite <- length_app_s.
    destruct (Str.startswith "{" g); cbn [negb].
    + rewrite IH by (rewrite length_app_s; lia). by rewrite drop_app_le.
    + rewrite IH by done. rewrite drop_all by done.
      rewrite app_assoc_s, slice_prefix by done. done.
Qed.

Lemma split_out_of_braces_segs s :
  _split_out_of_braces s
  = segs "" (Re.scan (Re.alt Re.braces (Re.spaced ","%char)) s).
Proof.
  unfold _split_out_of_braces, Re.finditer.
  set (ts := Re.scan _ s).
  assert (text ts = s) as E
    by (apply scan_text, alt_consuming;
        [apply braces_consuming|apply spaced_consuming]).
  pose proof (split_loop_segs ts "" 0 (Nat.le_0_l _)) as H.
  rewrite app_empty_l, E in H. exact H.
Qed.

End Segments.

(** ** Environment lists *)

Section EnvLists.

Implicit Types (s t cur lit body last rest : string)
  (tpl : list (string * string)) (seg : list (string * string) * string).

Lemma top_consuming : consuming (Re.alt Re.braces (Re.spaced ","%char)).
Proof. apply alt_consuming; [apply braces_consuming|apply spaced_consuming]. Qed.

Lemma tidy_not_brace c : tidy_char c = true → not_brace c = true.
Proof. unfold tidy_char. by intros [[? _]%andb_prop _]%andb_prop. Qed.

Lemma tidy_not_space c : tidy_char c = true → Str.isspace c = false.
Proof. unfold tidy_char. intros [_ H]%andb_prop. by apply negb_true_iff. Qed.

Lemma tidy_not_comma c : tidy_char c = true → Ascii.eqb c ","%char = false.
Proof.
  unfold tidy_char. intros [[_ H]%andb_prop _]%andb_prop. by apply negb_true_iff.
Qed.

Lemma top_tidy c t : tidy_char c = true → (Re.alt Re.braces (Re.spaced ","%char)) (String c t) = None.
Proof.
  intros Hc. unfold Re.alt. rewrite braces_not_open.
  - unfold Re.spaced. simpl. by rewrite (tidy_not_space c Hc), (tidy_not_comma c Hc).
  - intros ->. by apply tidy_not_brace in Hc.
Qed.

Lemma scan_top_tidy lit rest :
  Str.all tidy_char lit = true →
  Re.scan (Re.alt Re.braces (Re.spaced ","%char)) (lit +:+ rest) = skips lit ++ Re.scan (Re.alt Re.braces (Re.spaced ","%char)) rest.
Proof.
  induction lit as [|c lit IH]; [done|]. intros [Hc Hl]%andb_prop.
  rewrite app_cons, scan_eq by apply top_consuming.
  rewrite top_tidy by done. simpl. f_equal. by apply IH.
Qed.

Lemma segs_skips cur lit ts : segs cur (skips lit ++ ts) = segs (cur +:+ lit) ts.
Proof.
  revert cur. induction lit as [|c lit IH]; intros cur.
  - by rewrite app_empty_r.
  - cbn [skips app segs]. rewrite IH. by rewrite app_assoc_s.
Qed.

(** A tidy segment is gathered whole, the commas in its groups included. *)
Lemma segs_render tpl last cur rest :
  Forall (λ lb, Str.all tidy_char (fst lb) = true
                ∧ Str.all not_brace (snd lb) = true) tpl →
  Str.all tidy_char last = true →
  segs cur (Re.scan (Re.alt Re.braces (Re.spaced ","%char)) (render tpl last +:+ rest))
  = segs (cur +:+ render tpl last) (Re.scan (Re.alt Re.braces (Re.spaced ","%char)) rest).
Proof.
  intros Htpl Hlast. revert cur.
  induction Htpl as [|[lit body] tpl [Hlit Hbody] _ IH]; intros cur.
  - cbn [render]. rewrite scan_top_tidy by done. apply segs_skips.
  - simpl in Hlit, Hbody. cbn [render].
    rewrite app_assoc_s, scan_top_tidy by done. rewrite segs_skips.
    rewrite app_cons, app_assoc_s, app_cons.
    rewrite scan_eq by apply top_consuming.
    unfold Re.alt at 1. rewrite braces_group by done.
    cbn [segs Str.startswith]. rewrite Ascii.eqb_refl. cbn [andb].
    rewrite IH. by rewrite !app_assoc_s, !app_cons, !app_assoc_s.
Qed.

Lemma space_not_open c : Str.isspace c = true → c ≠ "{"%char.
Proof. by intros H ->. Qed.

(** A comma with white space around it is one separator. *)
Lemma top_separator w1 w2 rest :
  Str.all Str.isspace w1 = true → Str.all Str.isspace w2 = true →
  Str.lstrip rest = rest →
  (Re.alt Re.braces (Re.spaced ","%char)) (w1 +:+ String ","%char (w2 +:+ rest))
  = Some (w1 +:+ String ","%char w2, rest).
Proof.
  intros H1 H2 Hr. unfold Re.alt.
  assert (Re.braces (w1 +:+ String ","%char (w2 +:+ rest)) = None) as ->.
  { destruct w1 as [|c w1]; [done|]. rewrite app_cons.
    apply braces_not_open, space_not_open.
    simpl in H1. by apply andb_prop in H1 as [? _]. }
  by apply spaced_at_separator.
Qed.

Lemma separator_not_group w1 w2 :
  Str.all Str.isspace w1 = true →
  Str.startswith "{" (w1 +:+ String ","%char w2) = false.
Proof.
  destruct w1 as [|c w1]; [done|]. intros [Hc _]%andb_prop.
  rewrite app_cons. cbn [Str.startswith].
  destruct (Ascii.eqb_spec "{"%char c) as [<-|]; done.
Qed.

Lemma render_lstrip seg rest :
  segment_ok seg →
  Str.lstrip (render (fst seg) (snd seg) +:+ rest) = render (fst seg) (snd seg) +:+ rest.
Proof.
  destruct seg as [tpl last]. intros (Htpl & Hlast & Hne). simpl in *.
  assert (∀ c t, render tpl last = String c t → Str.isspace c = false) as H.
  { intros c t E. destruct tpl as [|[lit body] tpl].
    - simpl in E. subst last. simpl in Hlast.
      apply andb_prop in Hlast as [Hc _]. by apply tidy_not_space.
    - inversion Htpl as [|? ? [Hlit _] _]; subst. simpl in Hlit, E.
      destruct lit as [|d lit].
      + rewrite app_empty_l in E. by injection E as <- _.
      + rewrite app_cons in E. injection E as <- _. simpl in Hlit.
        apply andb_prop in Hlit as [Hc _]. by apply tidy_not_space. }
  destruct (render tpl last) as [|c t] eqn:E; [done|].
  rewrite app_cons. unfold Str.lstrip. simpl. by rewrite (H c t eq_refl).
Qed.

(** Splitting an environment list gives back the segments that were joined
    by commas, with or without white space around the commas. *)
Lemma split_out_of_braces_join w1 w2 (segments : list (list (string * string) * string)) :
  Str.all Str.isspace w1 = true → Str.all Str.isspace w2 = true →
  Forall segment_ok segments →
  _split_out_of_braces
    (Str.join (w1 +:+ String ","%char w2)
       (map (λ seg, render (fst seg) (snd seg)) segments))
  = map (λ seg, render (fst seg) (snd seg)) segments.
Proof.
  intros H1 H2. induction 1 as [|seg segments Hseg Hsegs IH]; [done|].
  rewrite split_out_of_braces_segs.
  pose proof Hseg as (Htpl & Hlast & Hne).
  destruct segments as [|seg' segments].
  - cbn [map Str.join].
    rewrite <- (app_empty_r (render (fst seg) (snd seg))) at 1.
    rewrite segs_render by done. rewrite app_empty_l.
    rewrite scan_eq by apply top_consuming.
    change (Re.alt Re.braces (Re.spaced ","%char) "") with (@None (string * string)).
    cbn [segs]. by rewrite bool_decide_eq_false_2.
  - change (Str.join (w1 +:+ String ","%char w2)
              (map (λ seg, render (fst seg) (snd seg)) (seg :: seg' :: segments)))
      with (render (fst seg) (snd seg) +:+ (w1 +:+ String ","%char w2)
            +:+ Str.join (w1 +:+ String ","%char w2)
                  (map (λ seg, render (fst seg) (snd seg)) (seg' :: segments))).
    set (J := Str.join _ (map _ (seg' :: segments))) in *.
    assert (Str.lstrip J = J) as HJ.
    { unfold J. inversion Hsegs as [|? ? Hseg' _]; subst.
      destruct segments as [|seg'' segments].
      - cbn [map Str.join].
        rewrite <- (app_empty_r (render (fst seg') (snd seg'))).
        by apply render_lstrip.
      - change (Str.join (w1 +:+ String ","%char w2)
                  (map (λ seg, render (fst seg) (snd seg)) (seg' :: seg'' :: segments)))
          with (render (fst seg') (snd seg') +:+ (w1 +:+ String ","%char w2)
                +:+ Str.join (w1 +:+ String ","%char w2)
                      (map (λ seg, render (fst seg) (snd seg)) (seg'' :: segments))).
        by apply render_lstrip. }
    rewrite segs_render by done. rewrite app_empty_l.
    rewrite app_assoc_s, app_cons.
    rewrite scan_eq by apply top_consuming.
    rewrite top_separator by done.
    cbn [segs]. rewrite separator_not_group by done.
    rewrite bool_decide_eq_false_2 by done. cbn [app map]. f_equal.
    rewrite <- split_out_of_braces_segs. exact IH.
Qed.

End EnvLists.

(** ** Candidates of the expansion *)

Section Candidates.

Implicit Types (s t lit body last : string) (tpl : list (string * string)).

Lemma replace_curly_not_nil envlist m : envlist ≠ [] → _replace_curly envlist m ≠ [].
Proof.
  intros He. unfold _replace_curly.
  destruct (Re.split _ _) as [|a alts] eqn:E; [by apply pieces_not_nil in E|].
  destruct envlist as [|e envlist]; [done|]. by csimpl.
Qed.

Lemma expand_curlys_not_nil s : expand_curlys s ≠ [].
Proof.
  unfold expand_curlys. generalize (reverse (Re.finditer Re.braces s)).
  assert (∀ ms acc, acc ≠ [] → foldl _replace_curly acc ms ≠ []) as H.
  { induction ms as [|m ms IH]; intros acc Hacc; [done|].
    simpl. by apply IH, replace_curly_not_nil. }
  intros ms. by apply H.
Qed.

Lemma bash_expand_nil s : bash_expand s = [] ↔ _split_out_of_braces s = [].
Proof.
  unfold bash_expand. split; [|by intros ->].
  destruct (_split_out_of_braces s) as [|t ts]; [done|].
  rewrite bind_cons. intros [H _]%app_eq_nil. by apply expand_curlys_not_nil in H.
Qed.

Lemma tidy_no_group t : Str.all tidy_char t = true → ¬ has_group t.
Proof.
  intros Ht. apply not_brace_no_group. revert Ht. apply all_impl, tidy_not_brace.
Qed.

Lemma segment_well_formed seg : segment_ok seg → well_formed (fst seg) (snd seg).
Proof.
  intros (Htpl & Hlast & _). split; [|by apply tidy_no_group].
  eapply Forall_impl; [exact Htpl|]. intros [lit body] [Hl Hb]. simpl in *.
  split; [by apply tidy_no_group|done].
Qed.

(** An environment list expands to the products of its segments, one after
    the other. *)
Lemma bash_expand_join w1 w2 (segments : list (list (string * string) * string)) :
  Str.all Str.isspace w1 = true → Str.all Str.isspace w2 = true →
  Forall segment_ok segments →
  bash_expand
    (Str.join (w1 +:+ String ","%char w2)
       (map (λ seg, render (fst seg) (snd seg)) segments))
  = concat (map (λ seg, product (fst seg) (snd seg)) segments).
Proof.
  intros H1 H2 Hsegs. unfold bash_expand.
  rewrite split_out_of_braces_join by done.
  induction Hsegs as [|seg segments Hseg _ IH]; [done|].
  cbn [map concat]. rewrite bind_cons, IH. f_equal.
  by apply expand_curlys_product, segment_well_formed.
Qed.

Lemma product_brace_free tpl last :
  Forall (λ lb, Str.all not_brace (fst lb) = true
                ∧ Str.all not_brace (snd lb) = true) tpl →
  Str.all not_brace last = true →
  Forall (λ x, Str.all not_brace x = true) (product tpl last).
Proof.
  intros Htpl Hlast. induction Htpl as [|[lit body] tpl [Hlit Hbody] _ IH].
  - by repeat constructor.
  - simpl in Hlit, Hbody. cbn [product]. apply Forall_forall. intros x Hx.
    apply list_elem_of_bind in Hx as (alt & Hx & Halt).
    apply list_elem_of_bind in Hx as (t & Hx & Ht).
    apply list_elem_of_singleton in Hx as ->.
    pose proof (split_pieces_all not_brace (Re.spaced ","%char) body
                  (spaced_consuming _) Hbody) as Hp.
    rewrite Forall_forall in Hp, IH.
    by rewrite !all_app, Hlit, (Hp alt Halt), (IH t Ht).
Qed.

Lemma length_product tpl last : length (product tpl last) = combinations tpl.
Proof.
  induction tpl as [|[lit body] tpl IH]; [done|].
  cbn [product combinations]. rewrite <- IH.
  generalize (Re.split (Re.spaced ","%char) body). intros alts.
  induction alts as [|a alts IHa]; [done|].
  rewrite bind_cons, length_app, IHa. cbn [length Nat.mul]. f_equal.
  generalize (product tpl last). intros P.
  induction P as [|t P IHP]; [done|]. csimpl. by rewrite IHP.
Qed.

End Candidates.

(** ** Placeholders in their context *)

Section Context.

Variable environ : gmap string string.

Implicit Types (s t pre post body last key dflt v : string) (env : Env)
  (tpl : list (string * string)).

Lemma collect_render env tpl vals last :
  well_formed tpl last → values environ env tpl vals →
  ∃ items,
    Re.collect (λ m, _replace_match environ m env)
      (Re.scan Re.braces (render tpl last)) = Ok items
    ∧ Re.joined items = Ok (fill tpl vals last).
Proof.
  intros [Htpl Hlast] Hv. revert Htpl.
  induction Hv as [|[lit body] v tpl vals Hv _ IH]; intros Htpl.
  - exists (literals last). cbn [render fill].
    rewrite scan_braces_no_group by done.
    by rewrite collect_skips, joined_literals.
  - inversion Htpl as [|? ? [Hlit Hbody] Htpl']; subst. simpl in Hlit, Hbody, Hv.
    destruct (IH Htpl') as (items & Hc & Hj).
    exists (literals lit ++ PyStr v :: items). cbn [render fill].
    rewrite scan_braces_group by done.
    rewrite scan_braces_no_group by done.
    rewrite collect_app, collect_skips. simpl. rewrite Hv. simpl. rewrite Hc.
    split; [done|]. rewrite joined_app, joined_literals. simpl. by rewrite Hj.
Qed.

(** One pass puts the value of each group in its place and keeps the text
    between the groups. *)
Lemma pass_render env tpl vals last :
  well_formed tpl last → values environ env tpl vals →
  _pass environ env (render tpl last) = Ok (fill tpl vals last).
Proof.
  intros Hwf Hv. destruct (collect_render env tpl vals last Hwf Hv) as (items & Hc & Hj).
  unfold _pass, Re.sub. by rewrite Hc.
Qed.

Lemma replace_braces_render env tpl vals last :
  well_formed tpl last → values environ env tpl vals →
  ¬ has_group (fill tpl vals last) →
  replace_braces environ (render tpl last) env = Ok (fill tpl vals last).
Proof.
  intros Hwf Hv Hf. unfold replace_braces.
  apply (passes_fixed environ env 1); [unfold DEPTH; lia| |done].
  cbn [_passes]. by rewrite (pass_render env tpl vals last).
Qed.

Lemma replace_match_attribute env body (v : pyval) :
  getattr env (Str.strip body) = Some v →
  _replace_match environ (String "{"%char (body +:+ "}")) env = Ok v.
Proof. intros H. unfold _replace_match. by rewrite inner_group, H. Qed.

Lemma env_text_nospace key :
  plain key → Str.strip ("env:" +:+ key) = "env:" +:+ key.
Proof.
  intros Hk. apply strip_nospace. rewrite all_app.
  by rewrite (plain_nospace key Hk).
Qed.

Lemma replace_match_env_missing env key :
  plain key → getattr env ("env:" +:+ key) = None → environ !! key = None →
  _replace_match environ (String "{"%char (("env:" +:+ key) +:+ "}")) env
  = Raise (KeyError key).
Proof.
  intros Hk Ha He. unfold _replace_match.
  rewrite inner_group, env_text_nospace, Ha by done.
  cbn [_first_applicable]. unfold _replace_envvar.
  rewrite envvar_parts_two by by apply plain_no_colon.
  rewrite bool_decide_eq_false_2.
  - by rewrite He.
  - simpl. intros [?|[?|?]]; [lia|lia|done].
Qed.

Lemma replace_match_env_default env key dflt :
  plain key → plain dflt →
  getattr env ("env:" +:+ key +:+ ":" +:+ dflt) = None →
  _replace_match environ
    (String "{"%char (("env:" +:+ key +:+ ":" +:+ dflt) +:+ "}")) env
  = Ok (PyStr (default dflt (environ !! key))).
Proof.
  intros Hk Hd Ha. unfold _replace_match. rewrite inner_group.
  rewrite strip_nospace.
  - rewrite Ha. cbn [_first_applicable]. unfold _replace_envvar.
    rewrite envvar_parts_three by by apply plain_no_colon.
    rewrite bool_decide_eq_false_2; [done|].
    simpl. intros [?|[?|?]]; [lia|lia|done].
  - rewrite !all_app.
    by rewrite (plain_nospace key Hk), (plain_nospace dflt Hd).
Qed.

End Context.

(** ** Balanced texts and the levels of resolution *)

Section Levels.

Variable environ : gmap string string.

Implicit Types (s t pre rest : string) (env : Env) (f h i v : nest)
  (vok : nest → Prop).

Lemma written_app f h : written (nest_app f h) = written f +:+ written h.
Proof.
  induction f as [|s r IH|i _ r IH]; cbn [nest_app written].
  - by rewrite app_empty_l.
  - by rewrite IH, app_assoc_s.
  - by rewrite IH, app_cons, app_assoc_s, app_cons.
Qed.

Lemma nest_ok_app f h : nest_ok f → nest_ok h → nest_ok (nest_app f h).
Proof. induction f; simpl; intuition. Qed.

Lemma depth_app f h : depth (nest_app f h) = Nat.max (depth f) (depth h).
Proof. induction f; simpl; lia. Qed.

Lemma resolved_depth f : resolved f = true ↔ depth f = 0.
Proof. induction f; simpl; [done|done|]. split; [done|lia]. Qed.

Lemma deep_depth f : resolved f = false ↔ 0 < depth f.
Proof.
  pose proof (resolved_depth f) as H. destruct (resolved f).
  - split; [done|]. intros ?. assert (depth f = 0) by by apply H. lia.
  - split; [|done]. intros _. destruct (depth f) eqn:E; [|lia].
    assert (false = true) by by apply H. done.
Qed.

Lemma resolved_written f :
  nest_ok f → resolved f = true → Str.all not_brace (written f) = true.
Proof.
  induction f as [|s r IH|]; simpl; [done| |done].
  intros [Hs Hr] Hres. by rewrite all_app, Hs, IH.
Qed.

(** The first brace of a text with a group opens a group. *)
Lemma deep_written f :
  nest_ok f → resolved f = false →
  ∃ pre more, Str.all not_brace pre = true ∧ written f = pre +:+ String "{"%char more.
Proof.
  induction f as [|s r IH|i _ r _]; simpl; [done| |].
  - intros [Hs Hr] Hres. destruct (IH Hr Hres) as (pre & more & Hpre & ->).
    exists (s +:+ pre), more. split; [by rewrite all_app, Hs, Hpre|].
    by rewrite app_assoc_s.
  - intros _ _. by exists "", (written i +:+ String "}"%char (written r)).
Qed.

Lemma braces_deep pre more :
  Str.all not_brace pre = true →
  Re.braces (String "{"%char (pre +:+ String "{"%char more)) = None.
Proof.
  intros Hpre. unfold Re.braces.
  change (λ c, negb (Re.is_brace c)) with not_brace.
  by rewrite span_app_stop by done.
Qed.

Lemma scan_braces_plain s rest :
  Str.all not_brace s = true →
  Re.scan Re.braces (s +:+ rest) = skips s ++ Re.scan Re.braces rest.
Proof.
  induction s as [|c s IH]; intros H.
  - by rewrite app_empty_l.
  - simpl in H. apply andb_prop in H as [Hc Hs].
    rewrite app_cons, scan_eq by apply braces_consuming.
    rewrite braces_not_open by (by intros ->).
    simpl. f_equal. by apply IH.
Qed.

(** The scan of a balanced text, whatever follows it. *)
Lemma scan_written f :
  nest_ok f →
  ∀ rest, Re.scan Re.braces (written f +:+ rest) = tokens f ++ Re.scan Re.braces rest.
Proof.
  induction f as [|s r IH|i IHi r IHr]; intros Hok rest; cbn [written tokens].
  - by rewrite app_empty_l.
  - destruct Hok as [Hs Hr]. rewrite app_assoc_s, scan_braces_plain by done.
    rewrite IH by done. by rewrite (assoc_L (++)).
  - destruct Hok as [Hi Hr]. rewrite app_cons, app_assoc_s, app_cons.
    destruct (resolved i) eqn:E.
    + rewrite scan_eq by apply braces_consuming.
      rewrite braces_group by (by apply resolved_written).
      simpl. f_equal. by apply IHr.
    + destruct (deep_written i Hi E) as (pre & more & Hpre & Hw).
      rewrite scan_eq by apply braces_consuming.
      assert (Re.braces (String "{"%char
                (written i +:+ String "}"%char (written r +:+ rest))) = None) as ->.
      { rewrite Hw, app_assoc_s, app_cons. by apply braces_deep. }
      rewrite IHi by done. rewrite scan_eq by apply braces_consuming.
      rewrite braces_not_open by done. rewrite IHr by done.
      simpl. f_equal. by rewrite <- (assoc_L (++)).
Qed.

Lemma collect_tokens env vok f f' :
  pass_step environ env vok f f' →
  ∃ items,
    Re.collect (λ m, _replace_match environ m env) (tokens f) = Ok items
    ∧ Re.joined items = Ok (written f').
Proof.
  induction 1 as [|s r r' _ (items & Hc & Hj)
                  |i v r r' Hi Hv _ _ (items & Hc & Hj)
                  |i i' r r' Hi _ (itemsi & Hci & Hji) _ (items & Hc & Hj)];
    cbn [tokens written].
  - by exists [].
  - exists (literals s ++ items). rewrite collect_app, collect_skips, bind_ok, Hc.
    split; [done|]. rewrite joined_app, joined_literals. simpl. by rewrite Hj.
  - rewrite Hi. exists (PyStr (written v) :: items). simpl. rewrite Hv. simpl.
    rewrite Hc. split; [done|]. rewrite Hj. simpl. by rewrite written_app.
  - rewrite Hi. exists (PyStr "{" :: itemsi ++ PyStr "}" :: items). simpl.
    rewrite collect_app, Hci. simpl. rewrite Hc. simpl. split; [done|].
    rewrite joined_app, Hji. simpl. rewrite Hj. done.
Qed.

(** A pass over a balanced text is one level of resolution. *)
Lemma pass_written env vok f f' :
  nest_ok f → pass_step environ env vok f f' →
  _pass environ env (written f) = Ok (written f').
Proof.
  intros Hok Hs. unfold _pass, Re.sub.
  rewrite <- (app_empty_r (written f)), scan_written by done.
  change (Re.scan Re.braces "") with (@nil Re.token). rewrite app_nil_r.
  destruct (collect_tokens env vok f f' Hs) as (items & -> & Hj). done.
Qed.

Lemma pass_step_ok env vok f f' :
  (∀ v, vok v → nest_ok v) → nest_ok f → pass_step environ env vok f f' → nest_ok f'.
Proof.
  intros Hv Hok Hs. induction Hs; simpl in *; [done|tauto| |tauto].
  apply nest_ok_app; [by apply Hv|tauto].
Qed.

Lemma passes_written env vok n f f' :
  (∀ v, vok v → nest_ok v) → nest_ok f → pass_steps environ env vok n f f' →
  _passes environ n env (written f) = Ok (written f') ∧ nest_ok f'.
Proof.
  intros Hv Hok Hs. induction Hs as [f|n f g h Hfg _ IH]; [done|].
  cbn [_passes]. rewrite (pass_written env vok f g) by done. rewrite bind_ok.
  apply IH. by eapply pass_step_ok.
Qed.

Lemma has_group_app_r s t : has_group s → has_group (s +:+ t).
Proof.
  intros (pre & g & post & Hg & ->). exists pre, g, (post +:+ t).
  split; [done|]. by rewrite !app_assoc_s.
Qed.

Lemma resolved_no_group f :
  nest_ok f → resolved f = true → ¬ has_group (written f).
Proof. intros Hok Hr. by apply not_brace_no_group, resolved_written. Qed.

Lemma deep_has_group f :
  nest_ok f → resolved f = false → has_group (written f).
Proof.
  induction f as [|s r IH|i IHi r _]; simpl; [done| |].
  - intros [_ Hr] Hres. by apply has_group_app_l, IH.
  - intros [Hi _] _. destruct (resolved i) eqn:E.
    + exists "", (String "{"%char (written i +:+ "}")), (written r).
      split; [exists (written i); split; [done|by apply resolved_written]|].
      by rewrite app_empty_l, app_cons, app_assoc_s.
    + apply has_group_cons, has_group_app_r. by apply IHi.
Qed.

Lemma depth_no_group f : nest_ok f → depth f = 0 ↔ ¬ has_group (written f).
Proof.
  intros Hok. split.
  - intros Hd. apply resolved_no_group; [done|]. by apply resolved_depth.
  - intros Hg. apply resolved_depth. destruct (resolved f) eqn:E; [done|].
    destruct Hg. by apply deep_has_group.
Qed.

(** With values without braces a level of resolution takes one level of
    nesting away. *)
Lemma step_depth env f f' :
  pass_step environ env text_value f f' → depth f' = pred (depth f).
Proof.
  induction 1 as [|s r r' _ IH|i v r r' Hi _ [_ Hv] _ IH|i i' r r' Hi _ IHi _ IHr];
    simpl; [done|done| |].
  - apply resolved_depth in Hi, Hv. rewrite depth_app. lia.
  - apply deep_depth in Hi. lia.
Qed.

Lemma steps_depth env n f f' :
  pass_steps environ env text_value n f f' → depth f' = depth f - n.
Proof.
  induction 1 as [f|n f g h Hfg _ IH]; [lia|].
  apply step_depth in Hfg. lia.
Qed.

Lemma step_mono env (P Q : nest → Prop) f f' :
  (∀ v, P v → Q v) → pass_step environ env P f f' → pass_step environ env Q f f'.
Proof. intros HPQ. induction 1; [constructor|constructor|econstructor|constructor]; eauto. Qed.

Lemma steps_mono env (P Q : nest → Prop) n f f' :
  (∀ v, P v → Q v) →
  pass_steps environ env P n f f' → pass_steps environ env Q n f f'.
Proof.
  intros HPQ. induction 1; [constructor|]. econstructor; [|done].
  by eapply step_mono.
Qed.

Lemma steps_text_value env n f f' :
  pass_steps environ env text_value n f f' → pass_steps environ env nest_ok n f f'.
Proof. apply steps_mono. by intros v [? _]. Qed.

(** The computed levels are levels of resolution. *)
Lemma resolve_level_step env f f' :
  resolve_level environ env f = Some f' → pass_step environ env text_value f f'.
Proof.
  revert f'. induction f as [|s r IH|i IHi r IHr]; intros f'; cbn [resolve_level].
  - intros [= <-]. constructor.
  - destruct (resolve_level environ env r) as [r'|]; [|done].
    intros [= <-]. constructor. by apply IH.
  - destruct (resolved i) eqn:E.
    + destruct (_replace_match environ _ env) as [[v| |]|] eqn:Ev; try done.
      destruct (Str.all not_brace v) eqn:Hv; [|done].
      destruct (resolve_level environ env r) as [r'|]; [|done].
      intros [= <-].
      apply (step_leaf environ env text_value i (Ntext v Nend) r r'); [done| | |by apply IHr].
      * cbn [written]. by rewrite app_empty_r.
      * by repeat split.
    + destruct (resolve_level environ env i) as [i'|]; [|done].
      destruct (resolve_level environ env r) as [r'|]; [|done].
      intros [= <-]. constructor; [done|by apply IHi|by apply IHr].
Qed.

Lemma resolve_levels_steps env n f f' :
  resolve_levels environ env n f = Some f' →
  pass_steps environ env text_value n f f'.
Proof.
  revert f. induction n as [|n IH]; intros f; cbn [resolve_levels].
  - intros [= <-]. constructor.
  - destruct (resolve_level environ env f) as [g|] eqn:E; [|done].
    intros H. econstructor; [by apply resolve_level_step|by apply IH].
Qed.

(** A brace group at the start of a text is what the matcher finds. *)
Lemma has_group_head c t :
  has_group (String c t) →
  (∃ g r, Re.braces (String c t) = Some (g, r)) ∨ has_group t.
Proof.
  intros (pre & g & post & (body & -> & Hb) & E). destruct pre as [|d pre].
  - left. rewrite app_empty_l, app_cons, app_assoc_s in E. rewrite E.
    eexists _, _. by apply braces_group.
  - right. rewrite app_cons in E. injection E as -> ->.
    exists pre, (String "{"%char (body +:+ "}")), post. split; [by exists body|done].
Qed.

(** Every string is literal texts with a brace group after each, and a last
    literal text. *)
Lemma template_exists s : ∃ tpl last, well_formed tpl last ∧ s = render tpl last.
Proof.
  revert s.
  refine (scan_ind Re.braces
            (λ s, ∃ tpl last, well_formed tpl last ∧ s = render tpl last)
            braces_consuming _).
  intros s IHm IHs. destruct (Re.braces s) as [[g rest]|] eqn:E.
  - destruct (IHm g rest eq_refl) as (tpl & last & [Htpl Hlast] & ->).
    apply braces_inv in E as (body & Hb & -> & ->).
    exists (("", body) :: tpl), last. split.
    + split; [|done]. constructor; [|done]. split; [|done].
      by apply no_open_no_group.
    + cbn [render]. by rewrite app_empty_l, app_cons, app_assoc_s.
  - destruct s as [|c t].
    + exists [], "". split; [|done]. split; [constructor|by apply no_open_no_group].
    + destruct (IHs eq_refl c t eq_refl) as (tpl & last & [Htpl Hlast] & ->).
      destruct tpl as [|[lit body] tpl].
      * exists [], (String c last). split; [|done]. split; [constructor|].
        cbn [render] in E. intros [(g & r & Hg)|Hg]%has_group_head; [congruence|done].
      * exists ((String c lit, body) :: tpl), last. split; [|cbn [render]; by rewrite app_cons].
        split; [|done]. inversion Htpl as [|? ? [Hlit Hbody] Htpl']; subst.
        constructor; [|done]. split; [|done]. simpl in Hlit |- *.
        intros [(g & r & Hg)|Hg]%has_group_head; [|done].
        cbn [render] in E. rewrite <- app_cons in E.
        rewrite (braces_app_some _ _ _ _ Hg) in E. done.
Qed.

End Levels.

(** C2, amended: resolution is five passes, whether or not an earlier pass
    already left no brace group, in which case the later passes change
    nothing.  Every string is literal texts with brace groups between them,
    and a pass replaces every one of these groups by its value and keeps the
    texts.  On a text with balanced braces a pass is therefore one level of
    resolution from the inside: the pairs of braces with no brace between
    them are replaced, those around other braces stay.  When at most five
    levels leave no brace, that text is the result; otherwise the result is
    what five levels leave, braces included, with no error.  When the
    values have no braces, each level takes one level of nesting away: up
    to five levels of nesting are fully resolved, and of six or more the
    five inner ones are resolved and the outer ones come back unexpanded. *)
Theorem C2_depth_cap (environ : gmap string string) (env : Env) :
  (∀ s, replace_braces environ s env = _passes environ 5 env s)
  ∧ (∀ s k t, k ≤ 5 → _passes environ k env s = Ok t → ¬ has_group t →
       replace_braces environ s env = Ok t)
  ∧ (∀ s, ∃ tpl last, well_formed tpl last ∧ s = render tpl last)
  ∧ (∀ tpl vals last,
       well_formed tpl last → values environ env tpl vals →
       _pass environ env (render tpl last) = Ok (fill tpl vals last))
  ∧ (∀ f f',
       nest_ok f → pass_step environ env nest_ok f f' →
       _pass environ env (written f) = Ok (written f') ∧ nest_ok f')
  ∧ (∀ i r f',
       resolved i = false → pass_step environ env nest_ok (Ngroup i r) f' →
       ∃ i' r', f' = Ngroup i' r'
                ∧ pass_step environ env nest_ok i i'
                ∧ pass_step environ env nest_ok r r')
  ∧ (∀ n f f',
       nest_ok f → pass_steps environ env nest_ok n f f' → n ≤ 5 → depth f' = 0 →
       replace_braces environ (written f) env = Ok (written f')
       ∧ ¬ has_group (written f'))
  ∧ (∀ f f',
       nest_ok f → pass_steps environ env nest_ok 5 f f' →
       replace_braces environ (written f) env = Ok (written f')
       ∧ (0 < depth f' → has_group (written f')))
  ∧ (∀ f f',
       nest_ok f → pass_steps environ env text_value 5 f f' →
       replace_braces environ (written f) env = Ok (written f')
       ∧ depth f' = depth f - 5
       ∧ (depth f ≤ 5 → ¬ has_group (written f'))
       ∧ (5 < depth f → has_group (written f'))).
Proof.
  split; [done|]. split; [|split; [|split; [|split; [|split; [|split; [|split]]]]]].
  - intros s k t Hk Hs Ht. by apply (passes_fixed environ env k).
  - apply template_exists.
  - intros tpl vals last. apply pass_render.
  - intros f f' Hok Hs. split; [by eapply pass_written|by eapply pass_step_ok].
  - intros i r f' Hi Hs. inversion Hs; subst; [congruence|by eauto].
  - intros n f f' Hok Hs Hn Hd.
    destruct (passes_written environ env nest_ok n f f') as [Hp Hok']; [done..|].
    assert (¬ has_group (written f')) as Hg by by apply depth_no_group.
    split; [|done]. by apply (passes_fixed environ env n).
  - intros f f' Hok Hs.
    destruct (passes_written environ env nest_ok 5 f f') as [Hp Hok']; [done..|].
    split; [done|]. intros Hd. apply deep_has_group; [done|]. by apply deep_depth.
  - intros f f' Hok Hs. pose proof (steps_depth environ env 5 f f' Hs) as Hd.
    apply steps_text_value in Hs.
    destruct (passes_written environ env nest_ok 5 f f') as [Hp Hok']; [done..|].
    split; [done|]. split; [done|]. split.
    + intros Hle. apply depth_no_group; [done|lia].
    + intros Hlt. apply deep_has_group; [done|]. apply deep_depth. lia.
Qed.

Lemma C2_depth_cap_witness :
  replace_braces (<["USER" := "andy"]> ∅)
    "echo {posargs:{env:USER:} passed no posargs}" (bare_env "py27")
  = Ok "echo andy passed no posargs"
  ∧ replace_braces ∅
      "x {posargs:a{posargs:b{posargs:c{posargs:d{posargs:e{posargs:f}}}}}} y {posargs:z}"
      (bare_env "py27")
    = Ok "x {posargs:abcdef} y z"
  ∧ has_group "x {posargs:abcdef} y z"
  ∧ replace_braces (<["A" := "{env:B:x}"]> ∅) "{env:A}" (bare_env "py27") = Ok "x"
  ∧ _pass ∅ (bare_env "py27") "a{posargs:1}b{posargs:2}c{posargs:3}" = Ok "a1b2c3"
  ∧ replace_braces ∅ "{posargs:{env:USER:nobody}}" tox_env = Ok "arg1 arg2".
Proof.
  pose (f1 := Ntext "echo "
                (Ngroup (Ntext "posargs:"
                           (Ngroup (Ntext "env:USER:" Nend)
                                   (Ntext " passed no posargs" Nend)))
                        Nend)).
  pose (f2 := Ntext "x "
                (Ngroup
                   (Ntext "posargs:a" (Ngroup
                   (Ntext "posargs:b" (Ngroup
                   (Ntext "posargs:c" (Ngroup
                   (Ntext "posargs:d" (Ngroup
                   (Ntext "posargs:e" (Ngroup
                   (Ntext "posargs:f" Nend) Nend)) Nend)) Nend)) Nend)) Nend))
                   (Ntext " y " (Ngroup (Ntext "posargs:z" Nend) Nend)))).
  pose (f3 := Ngroup (Ntext "env:A" Nend) Nend).
  pose proof (C2_depth_cap (<["USER" := "andy"]> ∅) (bare_env "py27"))
    as (_ & _ & _ & _ & _ & _ & Hu & _).
  pose proof (C2_depth_cap ∅ (bare_env "py27"))
    as (_ & _ & _ & H4 & _ & _ & _ & _ & H9).
  pose proof (C2_depth_cap (<["A" := "{env:B:x}"]> ∅) (bare_env "py27"))
    as (_ & _ & _ & _ & _ & _ & Ha & _).
  pose proof (C2_depth_cap ∅ tox_env) as (_ & H2 & _).
  assert (nest_ok f1) as Hf1 by (repeat split; reflexivity).
  assert (nest_ok f2) as Hf2 by (repeat split; reflexivity).
  assert (nest_ok f3) as Hf3 by (repeat split; reflexivity).
  assert (pass_steps (<["USER" := "andy"]> ∅) (bare_env "py27") nest_ok 2 f1
            (Ntext "echo " (Ntext "andy passed no posargs" Nend))) as Hs1.
  { apply steps_text_value, resolve_levels_steps. vm_compute. reflexivity. }
  assert (pass_steps ∅ (bare_env "py27") text_value 5 f2
            (Ntext "x " (Ngroup (Ntext "posargs:a" (Ntext "bcdef" Nend))
                                (Ntext " y " (Ntext "z" Nend))))) as Hs2.
  { apply resolve_levels_steps. vm_compute. reflexivity. }
  assert (pass_steps (<["A" := "{env:B:x}"]> ∅) (bare_env "py27") nest_ok 2 f3
            (Ntext "x" Nend)) as Hs3.
  { apply (steps_more _ _ _ 1 f3 (Ngroup (Ntext "env:B:x" Nend) Nend)).
    - apply (step_leaf _ _ _ (Ntext "env:A" Nend)
               (Ngroup (Ntext "env:B:x" Nend) Nend) Nend Nend);
        [reflexivity|reflexivity|repeat split; reflexivity|constructor].
    - apply (steps_more _ _ _ 0 _ (Ntext "x" Nend)); [|constructor].
      apply (step_leaf _ _ _ (Ntext "env:B:x" Nend) (Ntext "x" Nend) Nend Nend);
        [reflexivity|reflexivity|repeat split; reflexivity|constructor]. }
  assert (2 ≤ 5) as H25 by lia.
  assert (5 < depth f2) as Hd2 by (vm_compute; lia).
  refine (conj _ (conj _ (conj _ (conj _ (conj _ _))))).
  - exact (proj1 (Hu 2 f1 _ Hf1 Hs1 H25 eq_refl)).
  - exact (proj1 (H9 f2 _ Hf2 Hs2)).
  - exact (proj2 (proj2 (proj2 (H9 f2 _ Hf2 Hs2))) Hd2).
  - exact (proj1 (Ha 2 f3 _ Hf3 Hs3 H25 eq_refl)).
  - apply (H4 [("a", "posargs:1"); ("b", "posargs:2"); ("c", "posargs:3")]
              ["1"; "2"; "3"] "").
    + split; [|by apply no_open_no_group].
      repeat constructor; by apply no_open_no_group.
    + repeat constructor.
  - apply (H2 _ 2); [lia|vm_compute; reflexivity|].
    apply no_open_no_group. reflexivity.
Defined.

(** ** More on positional arguments, factor conditions and values *)

Section More.

Implicit Types (s t l r line raw : string) (c d : ascii) (env : Env)
  (arguments : list string).

Lemma until_flag_no_flag arguments :
  Forall (λ a, Str.startswith "-" a = false) arguments →
  _until_flag arguments = arguments.
Proof. induction 1 as [|a r Ha _ IH]; cbn [_until_flag]; [done|]. by rewrite Ha, IH. Qed.

Lemma positional_args_no_flag arguments :
  Forall (λ a, Str.startswith "-" a = false) arguments →
  positional_args arguments = arguments.
Proof.
  intros H. unfold positional_args. destruct arguments as [|a r]; [done|].
  rewrite bool_decide_eq_false_2; [by apply until_flag_no_flag|].
  intros ->. by inversion H.
Qed.

Lemma until_flag_all arguments :
  Forall (λ a, Str.startswith "-" a = false) (_until_flag arguments).
Proof.
  induction arguments as [|a r IH]; cbn [_until_flag]; [constructor|].
  destruct (Str.startswith "-" a) eqn:Ha; by constructor.
Qed.

Lemma spaced_at_char c t :
  Str.isspace c = false → ∃ g rest, Re.spaced c (String c t) = Some (g, rest).
Proof.
  intros Hc. unfold Re.spaced. simpl. rewrite Hc, Ascii.eqb_refl.
  destruct (Str.span Str.isspace t) as [w2 rest]. by eexists _, _.
Qed.

(** No part of a split on a spaced separator holds the separator. *)
Lemma split_spaced_parts c s :
  Str.isspace c = false → Forall (no_char c) (Re.split (Re.spaced c) s).
Proof.
  intros Hc. unfold Re.split. revert s.
  refine (scan_ind (Re.spaced c) (λ s,
    Forall (no_char c) (Re.pieces (Re.scan (Re.spaced c) s)))
    (spaced_consuming c) _).
  intros s IHm IHs. rewrite scan_eq by apply spaced_consuming.
  destruct (Re.spaced c s) as [[g rest]|] eqn:E.
  - simpl. constructor; [done|]. by apply (IHm g rest).
  - destruct s as [|d t]; [by repeat constructor|].
    specialize (IHs eq_refl d t eq_refl). simpl.
    assert (Ascii.eqb d c = false) as Hd.
    { destruct (Ascii.eqb_spec d c) as [->|]; [|done].
      destruct (spaced_at_char c t Hc) as (g & rest & E'). congruence. }
    destruct (Re.pieces (Re.scan (Re.spaced c) t)) as [|h q].
    + repeat constructor. unfold no_char. simpl. by rewrite Hd.
    + inversion IHs as [|? ? Hh Hq]; subst. constructor; [|done].
      unfold no_char in *. simpl. by rewrite Hd, Hh.
Qed.

Lemma factor_no_colon env s :
  no_char ":"%char s → expand_factor_conditions s env = s.
Proof.
  intros Hs. apply factor_other. left.
  rewrite split_spaced_no_char by by apply no_char_not_has. simpl. lia.
Qed.

(** Evaluating the condition of a line twice is evaluating it once. *)
Lemma factor_idempotent env s :
  expand_factor_conditions (expand_factor_conditions s env) env
  = expand_factor_conditions s env.
Proof.
  pose proof (split_spaced_parts ":"%char s eq_refl) as HF.
  unfold expand_factor_conditions at 2 3.
  destruct (Re.split _ s) as [|e0 [|e1 [|e2 q]]] eqn:E.
  - unfold expand_factor_conditions. by rewrite E.
  - unfold expand_factor_conditions. by rewrite E.
  - case_bool_decide.
    + case_bool_decide; [|done]. apply factor_no_colon.
      by inversion HF as [|? ? _ [|? ? ? _]].
    + unfold expand_factor_conditions. rewrite E.
      rewrite bool_decide_eq_false_2; [done|]. intros Hne. by apply Hne.
  - unfold expand_factor_conditions. by rewrite E.
Qed.

Lemma tidy_label_expand l :
  l ≠ "" → Str.all tidy_char l = true → bash_expand l = [l].
Proof.
  intros Hne Hl. unfold bash_expand.
  rewrite split_out_of_braces_plain; [| |  |done].
  - simpl. rewrite expand_curlys_no_group by by apply tidy_no_group.
    done.
  - by apply tidy_no_group.
  - apply no_char_not_has. revert Hl. apply all_impl. intros c Hc.
    by rewrite (tidy_not_comma c Hc).
Qed.

(** A plain label selects the value exactly when it is one of the parts of
    the name of the environment between dashes. *)
Lemma factor_label env l w1 w2 r :
  l ≠ "" → l ≠ "env" → Str.all tidy_char l = true → no_char ":"%char l →
  Str.all Str.isspace w1 = true → Str.all Str.isspace w2 = true →
  no_char ":"%char r → Str.lstrip r = r →
  expand_factor_conditions (l +:+ w1 +:+ String ":"%char (w2 +:+ r)) env
  = if bool_decide (l ∈ Str.split "-"%char (name env)) then r else "".
Proof.
  intros Hne Henv Hl Hlc H1 H2 Hr Hrl.
  assert (Str.rstrip l = l) as Hrs.
  { apply rstrip_nospace. revert Hl. apply all_impl. intros c Hc.
    by rewrite (tidy_not_space c Hc). }
  unfold expand_factor_conditions.
  rewrite split_spaced_two by done.
  rewrite bool_decide_eq_true_2 by done.
  rewrite tidy_label_expand by done.
  destruct (decide (l ∈ Str.split "-"%char (name env))) as [Hin|Hin].
  - rewrite (bool_decide_eq_true_2 (l ∈ _)) by done.
    rewrite bool_decide_eq_true_2; [done|].
    intros Hempty. assert (l ∈ (∅ : gset string)) as Hl'; [|set_solver].
    rewrite <- Hempty. apply elem_of_intersection. split; [set_solver|].
    by apply elem_of_list_to_set.
  - rewrite (bool_decide_eq_false_2 (l ∈ _)) by done.
    rewrite bool_decide_eq_false_2; [done|]. intros Hm. apply Hm.
    apply set_eq. intros x. split; [|set_solver].
    intros [Hx1 Hx2]%elem_of_intersection.
    apply elem_of_list_to_set in Hx1, Hx2.
    apply list_elem_of_singleton in Hx1 as ->. done.
Qed.

Lemma join_cons c x (xs : list string) :
  xs ≠ [] → Str.join (String c "") (x :: xs) = x +:+ String c (Str.join (String c "") xs).
Proof. destruct xs as [|y ys]; [done|]. intros _. done. Qed.

(** Joining the lines of a text with the separator gives the text back. *)
Lemma join_split c s : Str.join (String c "") (Str.split c s) = s.
Proof.
  induction s as [|d s IH]; [done|]. cbn [Str.split].
  pose proof (split_not_nil c s) as Hn.
  destruct (Ascii.eqb_spec d c) as [->|Hd].
  - rewrite join_cons by done. by rewrite IH.
  - destruct (Str.split c s) as [|h q]; [done|].
    destruct q as [|y q].
    + simpl in *. by rewrite IH.
    + rewrite join_cons in IH by done. rewrite join_cons by done.
      by rewrite app_cons, IH.
Qed.

Lemma split_parts_all (p : ascii → bool) c s :
  Str.all p s = true → Forall (λ x, Str.all p x = true) (Str.split c s).
Proof.
  induction s as [|d s IH]; [by repeat constructor|].
  simpl. intros [Hd Hs]%andb_prop. specialize (IH Hs).
  destruct (Ascii.eqb d c); [by constructor|].
  destruct (Str.split c s) as [|h q]; [repeat constructor; simpl; by rewrite Hd|].
  inversion IH; subst. constructor; [|done]. simpl. by rewrite Hd.
Qed.

(** A configured value with no colon comes back as it is. *)
Lemma replace_config_plain env section option raw :
  Str.all (λ c, negb (Ascii.eqb c "]"%char) && negb (Ascii.eqb c newline)) section = true →
  no_char newline option →
  config_get env section option = Some raw → no_char ":"%char raw →
  _replace_config ("[" +:+ section +:+ "]" +:+ option) env = Ok raw.
Proof.
  intros Hs Ho Hraw Hc. unfold _replace_config.
  rewrite config_shape by done. rewrite Hraw. fold newline. f_equal.
  rewrite <- (join_split newline raw) at 2. f_equal.
  rewrite <- (list_fmap_id (Str.split newline raw)) at 2.
  apply Forall_fmap_ext_1. eapply Forall_impl; [by apply split_parts_all|].
  intros line Hline. by apply factor_no_colon.
Qed.

End More.

(** ** Further properties of the module *)

(** X1: [_strip_speechmarks] takes one pair of quotes, single or double, off
    a text that holds no such quote inside. *)
Theorem X1_strip_speechmarks_pair (q : ascii) (body : string) :
  is_quote q = true → no_char q body →
  _strip_speechmarks (String q (body +:+ String q "")) = body.
Proof. apply strip_speechmarks_quoted. Qed.

Lemma X1_strip_speechmarks_pair_witness : _strip_speechmarks "'a b'" = "a b".
Proof. exact (X1_strip_speechmarks_pair Re.squote "a b" eq_refl eq_refl). Defined.

(** X2: three quotes at both ends are taken off first, whatever the text
    between them holds. *)
Theorem X2_strip_speechmarks_triple (q : ascii) (body : string) :
  is_quote q = true →
  _strip_speechmarks (String q (String q (String q ""))
                      +:+ body +:+ String q (String q (String q ""))) = body.
Proof. apply strip_speechmarks_triple. Qed.

Lemma X2_strip_speechmarks_triple_witness :
  _strip_speechmarks "'''it's'''" = "it's".
Proof. exact (X2_strip_speechmarks_triple Re.squote "it's" eq_refl). Defined.

(** X3: a text that does not begin with a quote is returned unchanged, also
    when it ends with one or holds some. *)
Theorem X3_strip_speechmarks_unquoted (t : string) :
  (∀ c t', t = String c t' → is_quote c = false) → _strip_speechmarks t = t.
Proof. apply strip_speechmarks_unquoted. Qed.

Lemma X3_strip_speechmarks_unquoted_witness : _strip_speechmarks "it's'" = "it's'".
Proof.
  apply (X3_strip_speechmarks_unquoted "it's'").
  intros c t' [= <- _]. reflexivity.
Defined.

(** X4: [split_on] undoes the joining of words and quoted texts by the
    separator: each word comes back as it is and each quoted text without its
    quotes, the separators inside the quotes kept. *)
Theorem X4_split_on_join (sep : ascii) (args : list arg) :
  sep_ok sep → Forall (arg_ok sep) args →
  split_on (Str.join (String sep "") (map arg_text args)) sep
  = map arg_value args.
Proof. apply split_on_join. Qed.

Lemma X4_split_on_join_witness :
  split_on
    (Str.join " " (map arg_text
       [Plain "echo"; Quoted Re.dquote "a b"; Plain "it"; Quoted Re.squote ""]))
    " "%char
  = ["echo"; "a b"; "it"; ""].
Proof.
  apply (X4_split_on_join " "%char
           [Plain "echo"; Quoted Re.dquote "a b"; Plain "it"; Quoted Re.squote ""]).
  - split; [reflexivity|discriminate].
  - repeat constructor; discriminate.
Defined.

(** X5: separators give no token of their own, wherever they are: for
    words and quoted texts written with any number of separators in front,
    one or more after each of them but the last and any number at the end,
    [split_on] returns the words and the quoted texts without their quotes
    and nothing else; in particular a text of separators only gives no
    token, a separator in front of any text can be left out, and the empty
    text gives no token. *)
Theorem X5_split_on_separator_runs (sep : ascii) :
  sep_ok sep →
  (∀ (items : list (arg * nat)) lead,
     Forall (λ an, arg_ok sep (fst an)) items →
     split_on (run lead sep +:+ spaced_args sep items) sep
     = map (λ an, arg_value (fst an)) items)
  ∧ (∀ n, split_on (run n sep) sep = [])
  ∧ (∀ s, split_on (String sep s) sep = split_on s sep)
  ∧ split_on "" sep = [].
Proof.
  intros Hsep. split; [|split; [|split]].
  - intros items lead Hitems. by apply split_on_spaced.
  - intros n. rewrite <- (app_empty_r (run n sep)). by rewrite split_on_run.
  - intros s. by apply split_on_leading_sep.
  - done.
Qed.

Lemma X5_split_on_separator_runs_witness :
  split_on "  echo   'a  b' it  " " "%char = ["echo"; "a  b"; "it"]
  ∧ split_on "   " " "%char = []
  ∧ split_on "  a" " "%char = split_on " a" " "%char.
Proof.
  assert (sep_ok " "%char) as Hsep by (split; [reflexivity|discriminate]).
  refine (conj _ (conj _ _)).
  - apply (proj1 (X5_split_on_separator_runs " "%char Hsep)
             [(Plain "echo", 2); (Quoted Re.squote "a  b", 0); (Plain "it", 2)] 2).
    repeat constructor; discriminate.
  - exact (proj1 (proj2 (X5_split_on_separator_runs " "%char Hsep)) 3).
  - exact (proj1 (proj2 (proj2 (X5_split_on_separator_runs " "%char Hsep))) " a").
Defined.

(** X6: the brace expander always yields at least one candidate, so the
    expansion of an environment list is empty exactly when the list has no
    segment. *)
Theorem X6_expand_curlys_not_empty (s : string) :
  expand_curlys s ≠ []
  ∧ (bash_expand s = [] ↔ _split_out_of_braces s = []).
Proof. split; [apply expand_curlys_not_nil|apply bash_expand_nil]. Qed.

(** X7: [_split_out_of_braces] gives back the segments that were joined by
    commas, with any white space around the commas; the commas inside brace
    groups split nothing. *)
Theorem X7_split_out_of_braces_join (w1 w2 : string)
    (segments : list (list (string * string) * string)) :
  Str.all Str.isspace w1 = true → Str.all Str.isspace w2 = true →
  Forall segment_ok segments →
  _split_out_of_braces
    (Str.join (w1 +:+ String ","%char w2)
       (map (λ seg, render (fst seg) (snd seg)) segments))
  = map (λ seg, render (fst seg) (snd seg)) segments.
Proof. apply split_out_of_braces_join. Qed.

Lemma X7_split_out_of_braces_join_witness :
  _split_out_of_braces "py{26, 27}-x , py32" = ["py{26, 27}-x"; "py32"].
Proof.
  apply (X7_split_out_of_braces_join " " " " [([("py", "26, 27")], "-x"); ([], "py32")]);
    [reflexivity|reflexivity|].
  repeat constructor; discriminate.
Defined.

(** X8: [bash_expand] of segments joined by commas is the products of the
    segments one after the other. *)
Theorem X8_bash_expand_join (w1 w2 : string)
    (segments : list (list (string * string) * string)) :
  Str.all Str.isspace w1 = true → Str.all Str.isspace w2 = true →
  Forall segment_ok segments →
  bash_expand
    (Str.join (w1 +:+ String ","%char w2)
       (map (λ seg, render (fst seg) (snd seg)) segments))
  = concat (map (λ seg, product (fst seg) (snd seg)) segments).
Proof. apply bash_expand_join. Qed.

Lemma X8_bash_expand_join_witness :
  bash_expand "py{26, 27}-x,py32" = ["py26-x"; "py27-x"; "py32"].
Proof.
  apply (X8_bash_expand_join "" "" [([("py", "26, 27")], "-x"); ([], "py32")]);
    [reflexivity|reflexivity|].
  repeat constructor; discriminate.
Defined.

(** X9: when all the braces of a string are those of its groups, no
    candidate of the expansion holds a brace, and expanding a candidate again
    gives the candidate alone. *)
Theorem X9_candidates_brace_free (tpl : list (string * string)) (last : string) :
  Forall (λ lb, Str.all not_brace (fst lb) = true
                ∧ Str.all not_brace (snd lb) = true) tpl →
  Str.all not_brace last = true →
  Forall (λ x, Str.all not_brace x = true ∧ expand_curlys x = [x])
         (expand_curlys (render tpl last)).
Proof.
  intros Htpl Hlast. rewrite expand_curlys_product.
  - eapply Forall_impl; [by apply product_brace_free|].
    intros x Hx. split; [done|]. by apply expand_curlys_no_group, not_brace_no_group.
  - split; [|by apply not_brace_no_group].
    eapply Forall_impl; [exact Htpl|]. intros lb [Hl Hb].
    split; [by apply not_brace_no_group|done].
Qed.

Lemma X9_candidates_brace_free_witness :
  Forall (λ x, Str.all not_brace x = true ∧ expand_curlys x = [x])
         (expand_curlys "py{26,27}-django{15,16}").
Proof.
  apply (X9_candidates_brace_free [("py", "26,27"); ("-django", "15,16")] "").
  - repeat constructor.
  - reflexivity.
Defined.

(** X10: the number of candidates is the product of the numbers of
    alternatives of the groups. *)
Theorem X10_candidates_count (tpl : list (string * string)) (last : string) :
  well_formed tpl last →
  length (expand_curlys (render tpl last)) = combinations tpl.
Proof. intros Hwf. rewrite expand_curlys_product by done. apply length_product. Qed.

Lemma X10_candidates_count_witness :
  length (expand_curlys "py{26,27,33}-django{15,16}") = 6.
Proof.
  apply (X10_candidates_count [("py", "26,27,33"); ("-django", "15,16")] "").
  split; [|by apply no_open_no_group].
  repeat constructor; by apply no_open_no_group.
Defined.

(** X11: one pass of the resolver puts the value of every brace group in
    its place, left to right, and keeps the text between the groups; when the
    result has no brace group left it is the result of the resolution. *)
Theorem X11_pass_fills_groups (environ : gmap string string) (env : Env)
    (tpl : list (string * string)) (vals : list string) (last : string) :
  well_formed tpl last → values environ env tpl vals →
  _pass environ env (render tpl last) = Ok (fill tpl vals last)
  ∧ (¬ has_group (fill tpl vals last) →
     replace_braces environ (render tpl last) env = Ok (fill tpl vals last)).
Proof.
  intros Hwf Hv. split; [by apply pass_render|].
  intros Hf. by apply replace_braces_render.
Qed.

Lemma X11_pass_fills_groups_witness :
  replace_braces ∅ "echo {env:USER:nobody} passed {posargs:none}." (bare_env "py27")
  = Ok "echo nobody passed none.".
Proof.
  assert (well_formed [("echo ", "env:USER:nobody"); (" passed ", "posargs:none")] ".")
    as Hwf.
  { split; [|by apply no_open_no_group].
    repeat constructor; by apply no_open_no_group. }
  assert (values ∅ (bare_env "py27")
            [("echo ", "env:USER:nobody"); (" passed ", "posargs:none")]
            ["nobody"; "none"]) as Hv by repeat constructor.
  apply (proj2 (X11_pass_fills_groups ∅ (bare_env "py27") _ _ "." Hwf Hv)).
  by apply no_open_no_group.
Defined.

(** X12: a placeholder whose trimmed text is an attribute of the environment
    with a string value is replaced by that value before any other strategy
    is tried, and the text around it is kept. *)
Theorem X12_attribute_first (environ : gmap string string) (env : Env)
    (pre body post v : string) :
  Str.all not_brace body = true →
  getattr env (Str.strip body) = Some (PyStr v) →
  ¬ has_group pre → ¬ has_group post → ¬ has_group (pre +:+ v +:+ post) →
  replace_braces environ (pre +:+ "{" +:+ body +:+ "}" +:+ post) env
  = Ok (pre +:+ v +:+ post).
Proof.
  intros Hb Ha Hpre Hpost Hres. unfold replace_braces.
  apply (passes_fixed environ env 1); [unfold DEPTH; lia| |done].
  cbn [_passes].
  change (pre +:+ "{" +:+ body +:+ "}" +:+ post)
    with (pre +:+ String "{"%char (body +:+ String "}"%char post)).
  rewrite (pass_single_group environ env pre body post v); try done.
  by apply replace_match_attribute.
Qed.

Lemma X12_attribute_first_witness :
  replace_braces ∅ "[{ name }]" tox_env = Ok "[py34-foo]".
Proof.
  apply (X12_attribute_first ∅ tox_env "[" " name " "]" "py34-foo");
    try reflexivity; by apply no_open_no_group.
Defined.

(** X13: [{env:KEY}] with [KEY] unset makes the whole resolution raise the
    missing-key error for [KEY], whatever follows it, once the groups before
    it have been given a value. *)
Theorem X13_missing_env_var_raises (environ : gmap string string) (env : Env)
    (pre key post : string) :
  resolves environ env pre → plain key →
  getattr env ("env:" +:+ key) = None → environ !! key = None →
  replace_braces environ (pre +:+ "{env:" +:+ key +:+ "}" +:+ post) env
  = Raise (KeyError key).
Proof.
  intros Hpre Hk Ha He.
  change (pre +:+ "{env:" +:+ key +:+ "}" +:+ post)
    with (pre +:+ String "{"%char (("env:" +:+ key) +:+ String "}"%char post)).
  unfold replace_braces. simpl.
  rewrite (pass_raises_at environ env pre ("env:" +:+ key) post (KeyError key)); try done.
  - rewrite all_app. by rewrite (plain_not_brace key Hk).
  - by apply replace_match_env_missing.
Qed.

Lemma X13_missing_env_var_raises_witness :
  replace_braces (<["HOME" := "/root"]> ∅) "cd {env:HOME}; {env:UNSET} {foo}"
    (bare_env "py27")
  = Raise (KeyError "UNSET").
Proof.
  apply (X13_missing_env_var_raises (<["HOME" := "/root"]> ∅) (bare_env "py27")
           "cd {env:HOME}; " "UNSET" " {foo}").
  - eexists. vm_compute. reflexivity.
  - reflexivity.
  - reflexivity.
  - reflexivity.
Defined.

(** X14: [{env:KEY:DEFAULT}] never raises: it is replaced by the value of
    [KEY], or by [DEFAULT] when [KEY] is unset, and the text around it is
    kept. *)
Theorem X14_env_default_resolves (environ : gmap string string) (env : Env)
    (pre key dflt post : string) :
  plain key → plain dflt →
  getattr env ("env:" +:+ key +:+ ":" +:+ dflt) = None →
  ¬ has_group pre → ¬ has_group post →
  ¬ has_group (pre +:+ default dflt (environ !! key) +:+ post) →
  replace_braces environ (pre +:+ "{env:" +:+ key +:+ ":" +:+ dflt +:+ "}" +:+ post) env
  = Ok (pre +:+ default dflt (environ !! key) +:+ post).
Proof.
  intros Hk Hd Ha Hpre Hpost Hres. unfold replace_braces.
  apply (passes_fixed environ env 1); [unfold DEPTH; lia| |done].
  cbn [_passes].
  assert (pre +:+ "{env:" +:+ key +:+ ":" +:+ dflt +:+ "}" +:+ post
          = pre +:+ String "{"%char
              (("env:" +:+ key +:+ ":" +:+ dflt) +:+ String "}"%char post)) as ->.
  { f_equal. rewrite !app_cons, app_empty_l. do 5 f_equal.
    by rewrite !app_assoc_s. }
  rewrite (pass_single_group environ env pre _ post (default dflt (environ !! key)));
    try done.
  - rewrite !all_app.
    by rewrite (plain_not_brace key Hk), (plain_not_brace dflt Hd).
  - by apply replace_match_env_default.
Qed.

Lemma X14_env_default_resolves_witness :
  replace_braces (<["USER" := "andy"]> ∅) "echo {env:SHELL:sh}." (bare_env "py27")
  = Ok "echo sh.".
Proof.
  assert (¬ has_group "echo ") as H1 by by apply no_open_no_group.
  assert (¬ has_group ".") as H2 by by apply no_open_no_group.
  assert (¬ has_group ("echo " +:+ default "sh" ((<["USER" := "andy"]> ∅ : gmap string string) !! "SHELL") +:+ "."))
    as H3 by by apply no_open_no_group.
  exact (X14_env_default_resolves (<["USER" := "andy"]> ∅) (bare_env "py27")
           "echo " "SHELL" "sh" "." eq_refl eq_refl eq_refl H1 H2 H3).
Defined.

(** X15: a token list with no flag is positional as a whole, and unless
    the list begins with [--] taking the positional arguments twice is
    taking them once. *)
Theorem X15_positional_args_stable (arguments : list string) :
  (Forall (λ a, Str.startswith "-" a = false) arguments →
   positional_args arguments = arguments)
  ∧ (head arguments ≠ Some "--" →
     positional_args (positional_args arguments) = positional_args arguments).
Proof.
  split; [apply positional_args_no_flag|].
  intros Hh. apply positional_args_no_flag.
  unfold positional_args. destruct arguments as [|a r]; [constructor|].
  rewrite bool_decide_eq_false_2; [apply until_flag_all|]. by intros ->.
Qed.

Lemma X15_positional_args_stable_witness :
  positional_args ["a"; "b"] = ["a"; "b"]
  ∧ positional_args (positional_args ["a"; "-v"; "b"]) = positional_args ["a"; "-v"; "b"].
Proof.
  split.
  - apply (proj1 (X15_positional_args_stable ["a"; "b"])). repeat constructor.
  - apply (proj2 (X15_positional_args_stable ["a"; "-v"; "b"])). discriminate.
Defined.

(** X16: evaluating the factor condition of a line twice gives what
    evaluating it once gives. *)
Theorem X16_factor_idempotent (env : Env) (s : string) :
  expand_factor_conditions (expand_factor_conditions s env) env
  = expand_factor_conditions s env.
Proof. apply factor_idempotent. Qed.

(** X17: a line [label: value] with a plain label gives the value exactly
    when the label is one of the parts of the name of the environment between
    dashes, and the empty string otherwise. *)
Theorem X17_factor_label (env : Env) (l w1 w2 r : string) :
  l ≠ "" → l ≠ "env" → Str.all tidy_char l = true → no_char ":"%char l →
  Str.all Str.isspace w1 = true → Str.all Str.isspace w2 = true →
  no_char ":"%char r → Str.lstrip r = r →
  expand_factor_conditions (l +:+ w1 +:+ String ":"%char (w2 +:+ r)) env
  = if bool_decide (l ∈ Str.split "-"%char (name env)) then r else "".
Proof. apply factor_label. Qed.

Lemma X17_factor_label_witness :
  expand_factor_conditions "foo: nose" tox_env = "nose"
  ∧ expand_factor_conditions "py27 : nose" tox_env = "".
Proof.
  split.
  - apply (X17_factor_label tox_env "foo" "" " " "nose"); done.
  - apply (X17_factor_label tox_env "py27" " " " " "nose"); done.
Defined.

(** X18: a configured value that holds no colon, whatever its lines, is
    what [[SECTION]OPTION] resolves to, unchanged. *)
Theorem X18_config_value_plain (env : Env) (section option raw : string) :
  Str.all (λ c, negb (Ascii.eqb c "]"%char) && negb (Ascii.eqb c newline)) section = true →
  no_char newline option →
  config_get env section option = Some raw → no_char ":"%char raw →
  _replace_config ("[" +:+ section +:+ "]" +:+ option) env = Ok raw.
Proof. apply replace_config_plain. Qed.

Lemma X18_config_value_plain_witness :
  _replace_config "[testenv]commands"
    {| name := "py27"; options := [];
       config_get := λ _ _, Some ("nosetests" +:+ String newline "flake8");
       attrs := λ _, None |}
  = Ok ("nosetests" +:+ String newline "flake8").
Proof.
  apply (X18_config_value_plain _ "testenv" "commands"); reflexivity.
Defined.
